(** * The MIDI manifest generator ([generate_midi_manifest.py])

    A shallow embedding of the script: the directory walk under
    ["assets/midi"], the case-insensitive suffix filter, the relative path
    with its separators turned into forward slashes, the global sort, the
    JSON serialisation written as UTF-8 and the summary line.

    - A Python [str] is a sequence of Unicode code points: [list N].
    - The bytes of the output file are a [list byte].
    - What the script reads from its environment (the directory tree, the
      host's [os.sep], the state of the output path) is explicit data. *)

From Stdlib Require Import NArith Ascii String.
From Stdlib.Strings Require Import Byte.
From Stdlib Require DecimalString DecimalNat.
From stdpp Require Import base decidable numbers list sorting.

Local Open Scope N_scope.
Local Open Scope list_scope.

(** ** Python strings *)

Definition str := list N.

(** An ASCII literal as a Python string. *)
Definition lit (s : string) : str := map N_of_ascii (list_ascii_of_string s).

Definition slash : N := 47.
Definition backslash : N := 92.
Definition dot : N := 46.

(** [a < b] on [str]: lexicographic on code points, a proper prefix first. *)
Fixpoint str_ltb (a b : str) : bool :=
  match a, b with
  | _, [] => false
  | [], _ :: _ => true
  | x :: a', y :: b' =>
      if x <? y then true else if y <? x then false else str_ltb a' b'
  end.

(** [list.sort()] orders with [<] alone: [a] may stand before [b] when
    [b < a] does not hold. *)
Definition str_le (a b : str) : Prop := str_ltb b a = false.

#[global] Instance str_le_dec (a b : str) : Decision (str_le a b).
Proof. unfold str_le. apply _. Defined.

(** [str.endswith(suffix)] *)
Fixpoint startswith (s p : str) : bool :=
  match p, s with
  | [], _ => true
  | _ :: _, [] => false
  | y :: p', x :: s' => (x =? y) && startswith s' p'
  end.

Definition endswith (s suffix : str) : bool :=
  startswith (rev s) (rev suffix).

(** [str.replace(old, new)] for one-character [old] and [new]. *)
Definition replace (old new : N) (s : str) : str :=
  map (fun c => if c =? old then new else c) s.

(** [sep.join(parts)] *)
Fixpoint join_with (sep : N) (parts : list str) : str :=
  match parts with
  | [] => []
  | [p] => p
  | p :: ps => p ++ sep :: join_with sep ps
  end.

(** [list.sort()] on strings. Two strings that compare equal are the same
    string, so every sorting algorithm returns the same list; stdpp's
    stable merge sort stands for Python's. *)
Definition sort (l : list str) : list str := merge_sort str_le l.

(** The lowercase mapping of the ASCII range, which [str.lower()] applies to
    the code points below 128. *)
Definition ascii_lower (c : N) : N :=
  if (65 <=? c) && (c <=? 90) then c + 32 else c.

(** ** The host and [os.path] *)

(** The two flavours of [os.path]: [posixpath] and [ntpath]. *)
Inductive host : Type := Posix | Nt.

(** [os.sep] *)
Definition os_sep (h : host) : N :=
  match h with Posix => slash | Nt => backslash end.

(** The characters at which the host splits a path: [os.sep], and the
    forward slash, which is [os.altsep] on [Nt]. *)
Definition is_sep (h : host) (c : N) : bool := (c =? os_sep h) || (c =? slash).

Definition ends_with_sep (h : host) (p : str) : bool :=
  match rev p with c :: _ => is_sep h c | [] => false end.

(** [os.path.join(a, b)] for paths without a drive: an absolute [b] replaces
    [a]; otherwise [os.sep] is put between them unless [a] is empty or
    already ends with a separator. *)
Definition join (h : host) (a b : str) : str :=
  match b with
  | c :: _ =>
      if is_sep h c then b
      else match a with
           | [] => b
           | _ :: _ => if ends_with_sep h a then a ++ b else a ++ os_sep h :: b
           end
  | [] =>
      match a with
      | [] => []
      | _ :: _ => if ends_with_sep h a then a else a ++ [os_sep h]
      end
  end.

(** [path.split(sep)], at every separator of the host. *)
Fixpoint split_path (h : host) (p : str) : list str :=
  match p with
  | [] => [[]]
  | c :: p' =>
      if is_sep h c then [] :: split_path h p'
      else match split_path h p' with
           | [] => [[c]]
           | x :: xs => (c :: x) :: xs
           end
  end.

(** The components [normpath] keeps: empty ones and ["."] are dropped.
    [scandir] never lists a name [".."], so its collapsing is left out. *)
Definition components (h : host) (p : str) : list str :=
  List.filter (fun x => negb (bool_decide (x = [])) && negb (bool_decide (x = [dot])))
              (split_path h p).

(** The loop of [relpath] that skips the components shared by [start] and
    [path], returning what is left of each. *)
Fixpoint strip_common (start path : list str) : list str * list str :=
  match start, path with
  | x :: start', y :: path' =>
      if bool_decide (x = y) then strip_common start' path' else (start, path)
  | _, _ => (start, path)
  end.

(** [os.path.relpath(path, start)]. Both arguments are relative to the
    working directory, whose components [abspath] puts in front of both and
    the common-prefix loop removes again. *)
Definition relpath (h : host) (path start : str) : str :=
  let '(up, down) := strip_common (components h start) (components h path) in
  match map (fun _ => [dot; dot]) up ++ down with
  | [] => [dot]
  | x :: xs => fold_left (join h) xs x
  end.

(** ** The directory tree *)

#[local] Unset Elimination Schemes.

(** What a path names, as [os.walk] sees it. The entries of a directory are
    in the order in which [scandir] enumerates them.
    - [File]: anything for which [is_dir()] is false (a regular file, a link
      to one, a broken link).
    - [Closed]: a directory that the walk lists but yields nothing for: a
      symbolic link to a directory, which is not followed, or a directory
      whose [scandir] raises [OSError].
    - [Dir]: a directory that [scandir] can list. *)
Inductive node : Type :=
| File
| Closed
| Dir (entries : list (str * node)).

#[local] Set Elimination Schemes.

(** [entry.is_dir()], which follows symbolic links. *)
Definition is_dir (n : node) : bool :=
  match n with
  | File => false
  | Closed | Dir _ => true
  end.

(** Induction on a tree, with the property for every entry of a directory. *)
Fixpoint node_ind (P : node -> Prop)
    (HFile : P File) (HClosed : P Closed)
    (HDir : forall entries, Forall (fun e => P (snd e)) entries -> P (Dir entries))
    (n : node) {struct n} : P n :=
  match n with
  | File => HFile
  | Closed => HClosed
  | Dir entries =>
      HDir entries
        ((fix all (es : list (str * node)) : Forall (fun e => P (snd e)) es :=
            match es with
            | [] => List.Forall_nil _
            | e :: es' =>
                @List.Forall_cons _ _ e es' (node_ind P HFile HClosed HDir (snd e)) (all es')
            end) entries)
  end.

(** The first entry of a directory with a given name: what the path
    [join(top, name)] resolves to. *)
Fixpoint lookup_child (entries : list (str * node)) (name : str) : option node :=
  match entries with
  | [] => None
  | (name', child) :: rest =>
      if bool_decide (name' = name) then Some child else lookup_child rest name
  end.

(** The files the walk can come to: those of [n] and of the directories
    below it that [scandir] can list (nothing of a [Closed] directory is
    seen). For each, the names of the directories on the way down and the
    name of the file. *)
Fixpoint files_under (n : node) : list (list str * str) :=
  match n with
  | Dir entries =>
      flat_map (fun e =>
                  if is_dir (snd e)
                  then map (fun df => (fst e :: fst df, snd df)) (files_under (snd e))
                  else [([], fst e)])
               entries
  | File | Closed => []
  end.

(** No directory lists a name twice. *)
Fixpoint unique_names (n : node) : bool :=
  match n with
  | Dir entries =>
      bool_decide (NoDup (map fst entries))
      && forallb (fun e => unique_names (snd e)) entries
  | File | Closed => true
  end.

(** A name that a directory of the host can list: not empty, not ["."] or
    [".."], and without a separator of the host. *)
Definition wf_name (h : host) (name : str) : bool :=
  negb (bool_decide (name = []))
  && negb (bool_decide (name = [dot]))
  && negb (bool_decide (name = [dot; dot]))
  && forallb (fun c => negb (is_sep h c)) name.

Fixpoint wf_names (h : host) (n : node) : bool :=
  match n with
  | Dir entries => forallb (fun e => wf_name h (fst e) && wf_names h (snd e)) entries
  | File | Closed => true
  end.

(** A tree as a file system of the host presents it. *)
Definition well_formed (h : host) (n : node) : bool :=
  unique_names n && wf_names h n.

(** The canonical relative path of a file: the names of the directories
    from the base directory down to it and its own name, with forward
    slashes between them. *)
Definition rel_path (df : list str * str) : str :=
  join_with slash (fst df ++ [snd df]).

(** The loop of [os.walk] over [scandir(top)]: a name goes to [dirs] when
    [is_dir()] holds and to [nondirs] otherwise. *)
Fixpoint dirnames (entries : list (str * node)) : list str :=
  match entries with
  | [] => []
  | (name, n) :: rest =>
      if is_dir n then name :: dirnames rest else dirnames rest
  end.

Fixpoint filenames (entries : list (str * node)) : list str :=
  match entries with
  | [] => []
  | (name, n) :: rest =>
      if is_dir n then filenames rest else name :: filenames rest
  end.

(** ** [json.dump(paths, fh, ensure_ascii=False, indent=2)] *)

Definition hex_digit (n : N) : N := if n <? 10 then 48 + n else 87 + n.

(** The replacement of one character by [json.encoder.py_encode_basestring]:
    the quote, the backslash and the control characters below U+0020 are
    escaped, every other code point is kept. *)
Definition escape (c : N) : str :=
  if c =? 34 then [backslash; 34]
  else if c =? 92 then [backslash; backslash]
  else if c =? 10 then lit "\n"
  else if c =? 13 then lit "\r"
  else if c =? 9 then lit "\t"
  else if c =? 8 then lit "\b"
  else if c =? 12 then lit "\f"
  else if c <? 32 then lit "\u00" ++ [hex_digit (c / 16); hex_digit (c mod 16)]
  else [c].

Definition quote : N := 34.
Definition newline : N := 10.

Definition encode_basestring (s : str) : str :=
  quote :: flat_map escape s ++ [quote].

(** With [indent=2]: the text after the opening bracket and between items. *)
Definition newline_indent : str := newline :: lit "  ".
Definition separator : str := lit "," ++ newline_indent.

(** The chunks [_iterencode_list] yields for a list of strings, which
    [json.dump] hands to [fh.write] one by one. *)
Definition iterencode (paths : list str) : list str :=
  match paths with
  | [] => [lit "[]"]
  | p :: ps =>
      (lit "[" ++ newline_indent ++ encode_basestring p)
        :: map (fun v => separator ++ encode_basestring v) ps
        ++ [[newline]; lit "]"]
  end.

(** The whole text, [json.dumps(paths, ensure_ascii=False, indent=2)]. *)
Definition dumps (paths : list str) : str := concat (iterencode paths).

(** ** Reading the manifest back *)

(** [json.loads] for the texts that are an array of strings, after the
    grammar of JSON: the reader a consumer of the manifest applies. It
    serves to say what array a text holds. *)
Inductive reader : Type :=
| Start                          (* before the opening bracket *)
| Opened                         (* after it, no item yet *)
| Item                           (* after an item *)
| Comma                          (* after a comma *)
| Closed_array                   (* after the closing bracket *)
| InString (acc : str)
| Escape (acc : str)
| Hex (acc : str) (digits : list N).

Definition is_space (c : N) : bool :=
  (c =? 32) || (c =? 10) || (c =? 13) || (c =? 9).

Definition unhex (c : N) : option N :=
  if (48 <=? c) && (c <=? 57) then Some (c - 48)
  else if (97 <=? c) && (c <=? 102) then Some (c - 87)
  else if (65 <=? c) && (c <=? 70) then Some (c - 55)
  else None.

(** The character a backslash and [c] stand for. *)
Definition unescape (c : N) : option N :=
  if c =? 34 then Some 34
  else if c =? 92 then Some 92
  else if c =? 47 then Some 47
  else if c =? 110 then Some 10
  else if c =? 114 then Some 13
  else if c =? 116 then Some 9
  else if c =? 98 then Some 8
  else if c =? 102 then Some 12
  else None.

Fixpoint loads_from (text : str) (state : reader) (items : list str)
  : option (list str) :=
  match text with
  | [] => match state with Closed_array => Some items | _ => None end
  | c :: rest =>
      match state with
      | Start =>
          if is_space c then loads_from rest Start items
          else if c =? 91 then loads_from rest Opened items
          else None
      | Opened =>
          if is_space c then loads_from rest Opened items
          else if c =? quote then loads_from rest (InString []) items
          else if c =? 93 then loads_from rest Closed_array items
          else None
      | Item =>
          if is_space c then loads_from rest Item items
          else if c =? 44 then loads_from rest Comma items
          else if c =? 93 then loads_from rest Closed_array items
          else None
      | Comma =>
          if is_space c then loads_from rest Comma items
          else if c =? quote then loads_from rest (InString []) items
          else None
      | Closed_array =>
          if is_space c then loads_from rest Closed_array items else None
      | InString acc =>
          if c =? quote then loads_from rest Item (items ++ [acc])
          else if c =? backslash then loads_from rest (Escape acc) items
          else if c <? 32 then None
          else loads_from rest (InString (acc ++ [c])) items
      | Escape acc =>
          match unescape c with
          | Some u => loads_from rest (InString (acc ++ [u])) items
          | None => if c =? 117 then loads_from rest (Hex acc []) items else None
          end
      | Hex acc digits =>
          match unhex c with
          | Some d =>
              match digits with
              | [d1; d2; d3] =>
                  loads_from rest
                    (InString (acc ++ [((d1 * 16 + d2) * 16 + d3) * 16 + d])) items
              | _ => loads_from rest (Hex acc (digits ++ [d])) items
              end
          | None => None
          end
      end
  end.

Definition loads (text : str) : option (list str) := loads_from text Start [].

(** ** The text file opened with [encoding='utf-8'] *)

Definition byte_of (n : N) : byte :=
  match Byte.of_N (n mod 256) with Some b => b | None => x00 end.

(** The strict UTF-8 codec: a surrogate (which stands for an undecodable
    byte of a file name) raises [UnicodeEncodeError]. *)
Definition utf8_char (c : N) : option (list byte) :=
  if c <? 128 then Some [byte_of c]
  else if c <? 2048 then Some [byte_of (192 + c / 64); byte_of (128 + c mod 64)]
  else if (55296 <=? c) && (c <=? 57343) then None
  else if c <? 65536 then
    Some [byte_of (224 + c / 4096); byte_of (128 + (c / 64) mod 64);
          byte_of (128 + c mod 64)]
  else if c <? 1114112 then
    Some [byte_of (240 + c / 262144); byte_of (128 + (c / 4096) mod 64);
          byte_of (128 + (c / 64) mod 64); byte_of (128 + c mod 64)]
  else None.

Fixpoint utf8 (s : str) : option (list byte) :=
  match s with
  | [] => Some []
  | c :: s' =>
      match utf8_char c, utf8 s' with
      | Some b, Some bs => Some (b ++ bs)
      | _, _ => None
      end
  end.

(** A text file opened without [newline=]: a line feed is written as
    [os.linesep]. *)
Definition translate_newlines (h : host) (s : str) : str :=
  match h with
  | Posix => s
  | Nt => flat_map (fun c => if c =? newline then [13; newline] else [c]) s
  end.

(** [fh.write(chunk)] for each chunk in turn, on the bytes written so far:
    the first chunk that cannot be encoded raises and ends the writing. *)
Fixpoint write_chunks (h : host) (chunks : list str) (sofar : list byte)
  : list byte * bool :=
  match chunks with
  | [] => (sofar, true)
  | chunk :: rest =>
      match utf8 (translate_newlines h chunk) with
      | Some bs => write_chunks h rest (sofar ++ bs)
      | None => (sofar, false)
      end
  end.

(** The state of the output path ["assets/midi_manifest.json"]: whether
    [open(..., 'w')] succeeds, and how many bytes the device then takes
    ([None]: as many as are written). *)
Inductive output_path : Type :=
| Unopenable
| Openable (room : option nat).

(** What the script finds when it starts. *)
Record world : Type := World {
  root : option node;                  (* what ["assets/midi"] names *)
  output : output_path;
  manifest_file : option (list byte)   (* the output file, when it exists *)
}.

(** What a run leaves behind. *)
Record result : Type := Result {
  exit_code : N;
  stdout : str;
  written : option (list byte)         (* the output file after the run *)
}.

Definition decimal (n : nat) : str :=
  lit (DecimalString.NilEmpty.string_of_uint (Nat.to_uint n)).

(** Line 15 *)
Definition summary (count : nat) : str :=
  lit "Generated manifest with " ++ decimal count ++ lit " MIDI files." ++ [newline].

(** ** The script *)

Section Generator.

(** The host the script runs on. *)
Variable h : host.

(** [str.lower()], the Unicode lowercase mapping of the interpreter. *)
Variable lower : str -> str.

(** Line 2 *)
Definition base : str := lit "assets/midi".

(** Line 8: [f.lower().endswith(('.mid', '.midi'))] *)
Definition is_midi (f : str) : bool :=
  endswith (lower f) (lit ".mid") || endswith (lower f) (lit ".midi").

(** Lines 9-10: the entry appended for a matching file [f] of [root]. *)
Definition entry (root f : str) : str :=
  let rel := relpath h (join h root f) base in
  replace (os_sep h) slash rel.

(** Lines 7-10: the loop over the files of one directory. *)
Definition add_files (root : str) (files paths : list str) : list str :=
  fold_left (fun paths f => if is_midi f then paths ++ [entry root f] else paths)
            files paths.

(** Lines 4-10: [os.walk(top)] with the loop body run at every directory
    it yields. [scandir] fails on anything but a readable directory and
    [os.walk], called without [onerror], then yields nothing for it. The
    body sorts [dirs] in place (here with [order], which is [sort] in the
    script), so the walk descends in that order; each name is resolved
    again through the directory. *)
Fixpoint walk_with (order : list str -> list str)
         (top : str) (n : node) (paths : list str) {struct n} : list str :=
  match n with
  | Dir entries =>
      let dirs := order (dirnames entries) in
      let files := order (filenames entries) in
      let paths := add_files top files paths in
      fold_left
        (fun paths dirname =>
           (fix descend (es : list (str * node)) : list str :=
              match es with
              | [] => paths
              | (name, child) :: es' =>
                  if bool_decide (name = dirname)
                  then walk_with order (join h top dirname) child paths
                  else descend es'
              end) entries)
        dirs paths
  | File | Closed => paths
  end.

(** Where the walk goes for one name of [dirs]: the inner loop of
    [walk_with], with the name already resolved. *)
Definition enter (order : list str -> list str) (top dirname : str)
    (target : option node) (paths : list str) : list str :=
  match target with
  | None => paths
  | Some child => walk_with order (join h top dirname) child paths
  end.

(** The entries that the files below [n] give when [n] is walked as
    [top]: one for each file with a matching name. *)
Definition entries_of (top : str) (n : node) : list str :=
  map (fun df => entry (fold_left (join h) (fst df) top) (snd df))
      (List.filter (fun df => is_midi (snd df)) (files_under n)).

Definition walk : str -> node -> list str -> list str := walk_with sort.

(** What ["assets/midi"] names when the script starts: [None] when
    nothing has that name. *)
Definition collect (root : option node) : list str :=
  match root with
  | Some n => walk base n []
  | None => []
  end.

(** Lines 3-11: [paths] after [paths.sort()]. *)
Definition manifest (root : option node) : list str := sort (collect root).

(** Lines 12-15. An exception that nothing catches ends the interpreter
    with exit code 1 before line 15. Opening the file for writing
    empties it; what a failed write leaves is what the device took. *)
Definition run (w : world) : result :=
  let paths := manifest (root w) in
  match output w with
  | Unopenable => Result 1 [] (manifest_file w)
  | Openable room =>
      let '(bytes, encoded) := write_chunks h (iterencode paths) [] in
      match room with
      | Some r =>
          if encoded && bool_decide (length bytes <= r)%nat
          then Result 0 (summary (length paths)) (Some bytes)
          else Result 1 [] (Some (take r bytes))
      | None =>
          if encoded
          then Result 0 (summary (length paths)) (Some bytes)
          else Result 1 [] (Some bytes)
      end
  end.

(** The bytes the script hands to the output file, and whether all of the
    text could be encoded. *)
Definition to_write (root : option node) : list byte * bool :=
  write_chunks h (iterencode (manifest root)) [].

(** The output path cannot be written: it cannot be opened (a missing
    parent directory, no permission) or the device is full before the
    manifest is. *)
Definition unwritable (w : world) : bool :=
  match output w with
  | Unopenable => true
  | Openable (Some r) => negb (bool_decide (length (fst (to_write (root w))) <= r)%nat)
  | Openable None => false
  end.

(** What the specification asks of a run when the base directory cannot be
    read: a failure that leaves the output path as it was. *)
Definition fails_without_writing (w : world) (r : result) : Prop :=
  exit_code r <> 0 /\ written r = manifest_file w.

(** The world a run leaves behind for the next one. *)
Definition after (w : world) (r : result) : world :=
  World (root w) (output w) (written r).

End Generator.

(** ** The scenarios of the specification *)

Definition scenario_A : node :=
  Dir [ (lit "sub", Dir [ (lit "c.txt", File); (lit "B.MIDI", File) ]);
        (lit "a.mid", File) ].

Definition scenario_D : node :=
  Dir [ (lit "x", Dir [ (lit "y", Dir [ (lit "z", Dir [ (lit "song.mid", File) ]) ]);
                        (lit "song2.midi", File) ]) ].

Definition lower_ascii_only (s : str) : str := map ascii_lower s.

(** What the properties below take for granted of [str.lower()]: on a
    string of ASCII characters it is the ASCII mapping. *)
Definition ascii_only (s : str) : bool := forallb (fun c => c <? 128) s.

Definition lower_on_ascii (lower : str -> str) : Prop :=
  forall s, ascii_only s = true -> lower s = map ascii_lower s.

(** [os.path.splitext] on a bare name, the conventional split into stem
    and extension: at the last dot, unless only dots stand before it. *)
Fixpoint split_last_dot (name : str) : option (str * str) :=
  match name with
  | [] => None
  | c :: rest =>
      match split_last_dot rest with
      | Some (stem, ext) => Some (c :: stem, ext)
      | None => if c =? dot then Some ([], name) else None
      end
  end.

Definition splitext (name : str) : str * str :=
  match split_last_dot name with
  | Some (stem, ext) =>
      if forallb (fun c => c =? dot) stem then (name, []) else (stem, ext)
  | None => (name, [])
  end.

(** Two trees that hold the same files and differ only in the order in
    which some directories enumerate their entries. *)
Inductive reordered : node -> node -> Prop :=
| reordered_same n : reordered n n
| reordered_here es es' : es ≡ₚ es' -> reordered (Dir es) (Dir es')
| reordered_below name c c' es1 es2 :
    reordered c c' ->
    reordered (Dir (es1 ++ (name, c) :: es2)) (Dir (es1 ++ (name, c') :: es2))
| reordered_then a b c : reordered a b -> reordered b c -> reordered a c.

(** The base directory cannot be listed: nothing has that name, or what has
    it is not a directory, or [scandir] is refused. *)
Definition root_unreadable (root : option node) : bool :=
  match root with
  | Some (Dir _) => false
  | None | Some File | Some Closed => true
  end.

(** A tree in which every directory enumerates its entries the other way
    round. *)
Fixpoint mirror (n : node) : node :=
  match n with
  | Dir entries => Dir (rev (map (fun e => (fst e, mirror (snd e))) entries))
  | File | Closed => n
  end.


(** ** Further notions *)

(** [a < b] as a proposition. *)
Definition str_lt (a b : str) : Prop := str_ltb a b = true.

(** The name a file below a directory is listed under in that directory:
    its own when it lies there, else that of the first directory on the way. *)
Definition listed_as (df : list str * str) : str :=
  match fst df with
  | [] => snd df
  | d :: _ => d
  end.

(** The tree in which every directory that the walk cannot enter is an
    empty directory instead. *)
Fixpoint unlock (n : node) : node :=
  match n with
  | File => File
  | Closed => Dir []
  | Dir entries => Dir (map (fun e => (fst e, unlock (snd e))) entries)
  end.

(** A code point that the strict UTF-8 codec takes: a Unicode scalar value,
    that is, below U+110000 and not a surrogate. *)
Definition encodable (c : N) : bool :=
  (c <? 55296) || ((57343 <? c) && (c <? 1114112)).

(** The UTF-8 decoder a reader of the file applies, for well-formed input:
    the lead byte tells how many continuation bytes follow, each of which
    brings six bits. *)
Fixpoint utf8_decode (bytes : list byte) : str :=
  match bytes with
  | [] => []
  | b0 :: rest =>
      let n0 := Byte.to_N b0 in
      if n0 <? 128 then n0 :: utf8_decode rest
      else if n0 <? 224 then
        match rest with
        | b1 :: rest' =>
            ((n0 - 192) * 64 + (Byte.to_N b1 - 128)) :: utf8_decode rest'
        | _ => []
        end
      else if n0 <? 240 then
        match rest with
        | b1 :: b2 :: rest' =>
            ((n0 - 224) * 4096 + (Byte.to_N b1 - 128) * 64 + (Byte.to_N b2 - 128))
              :: utf8_decode rest'
        | _ => []
        end
      else
        match rest with
        | b1 :: b2 :: b3 :: rest' =>
            ((n0 - 240) * 262144 + (Byte.to_N b1 - 128) * 4096
             + (Byte.to_N b2 - 128) * 64 + (Byte.to_N b3 - 128))
              :: utf8_decode rest'
        | _ => []
        end
  end.

(** ** What lies under the base directory *)

#[local] Unset Elimination Schemes.

(** The directory tree as it lies on disk, whether or not the walk sees all
    of it. [entered] is false for a directory that [os.walk] lists in
    [dirs] and does not enter: [scandir] raises [OSError] for it, or it is
    a symbolic link. *)
Inductive tree : Type :=
| Leaf
| Branch (entered : bool) (entries : list (str * tree)).

#[local] Set Elimination Schemes.

Fixpoint tree_ind (P : tree -> Prop)
    (HLeaf : P Leaf)
    (HBranch : forall entered entries,
        Forall (fun e => P (snd e)) entries -> P (Branch entered entries))
    (t : tree) {struct t} : P t :=
  match t with
  | Leaf => HLeaf
  | Branch entered entries =>
      HBranch entered entries
        ((fix all (es : list (str * tree)) : Forall (fun e => P (snd e)) es :=
            match es with
            | [] => List.Forall_nil _
            | e :: es' =>
                @List.Forall_cons _ _ e es' (tree_ind P HLeaf HBranch (snd e)) (all es')
            end) entries)
  end.

(** What [os.walk] has before it. *)
Fixpoint seen (t : tree) : node :=
  match t with
  | Leaf => File
  | Branch false _ => Closed
  | Branch true entries => Dir (map (fun e => (fst e, seen (snd e))) entries)
  end.

(** All that lies there, every directory listed. *)
Fixpoint opened (t : tree) : node :=
  match t with
  | Leaf => File
  | Branch _ entries => Dir (map (fun e => (fst e, opened (snd e))) entries)
  end.

(** A base directory with a file [a.mid] and a directory [locked] that
    cannot be listed and holds a file [in.mid]. *)
Definition locked_tree : tree :=
  Branch true [ (lit "locked", Branch false [ (lit "in.mid", Leaf) ]);
                (lit "a.mid", Leaf) ].

(** ** Reading a number *)

(** The value of a string of decimal digits, as [int()] reads it. *)
Fixpoint digits_value (s : str) (acc : nat) : option nat :=
  match s with
  | [] => Some acc
  | c :: s' =>
      if (48 <=? c) && (c <=? 57)
      then digits_value s' (10 * acc + N.to_nat (c - 48))
      else None
  end.

Definition read_decimal (s : str) : option nat :=
  match s with
  | [] => None
  | _ :: _ => digits_value s 0
  end.

(** * Properties *)

(** ** The order of [paths.sort()] *)

Ltac cases_ltb :=
  repeat match goal with
         | |- context [?x <? ?y] => destruct (N.ltb_spec x y)
         | H : context [?x <? ?y] |- _ => destruct (N.ltb_spec x y)
         end.

Lemma str_ltb_irrefl (a : str) : str_ltb a a = false.
Proof. induction a as [|x a IH]; simpl; [done|]. cases_ltb; done || lia. Qed.

Lemma str_ltb_asym (a b : str) : str_ltb a b = true -> str_ltb b a = false.
Proof.
  revert b; induction a as [|x a IH]; intros [|y b]; simpl; try done.
  cases_ltb; try done; try lia. apply IH.
Qed.

Lemma str_ltb_total (a b : str) :
  str_ltb a b = false -> str_ltb b a = false -> a = b.
Proof.
  revert b; induction a as [|x a IH]; intros [|y b]; simpl; try done.
  cases_ltb; try done. intros Hab Hba.
  assert (x = y) as -> by lia. f_equal. by apply IH.
Qed.

Lemma str_ltb_trans (a b c : str) :
  str_ltb a b = true -> str_ltb b c = true -> str_ltb a c = true.
Proof.
  revert b c; induction a as [|x a IH]; intros [|y b] [|z c]; simpl; try done.
  cases_ltb; try done; try lia. apply IH.
Qed.

#[global] Instance str_le_refl : Reflexive str_le.
Proof. intros a. apply str_ltb_irrefl. Qed.

#[global] Instance str_le_total : Total str_le.
Proof.
  intros a b. unfold str_le.
  destruct (str_ltb b a) eqn:E; [right|left]; [by apply str_ltb_asym|done].
Qed.

#[global] Instance str_le_trans : Transitive str_le.
Proof.
  intros a b c. unfold str_le. intros Hba Hcb.
  destruct (str_ltb c a) eqn:Hca; [|done].
  destruct (str_ltb a b) eqn:Hab.
  - by rewrite (str_ltb_trans c a b) in Hcb.
  - assert (a = b) as -> by (by apply str_ltb_total). congruence.
Qed.

#[global] Instance str_le_antisym : AntiSymm (=) str_le.
Proof. intros a b Hab Hba. by apply str_ltb_total. Qed.

Lemma sort_sorted (l : list str) : Sorted str_le (sort l).
Proof. apply (Sorted_merge_sort str_le). Qed.

Lemma sort_perm (l : list str) : sort l ≡ₚ l.
Proof. apply merge_sort_Permutation. Qed.

(** The sorted list depends on the elements alone, not on their order. *)
Lemma sort_of_perm (l1 l2 : list str) : l1 ≡ₚ l2 -> sort l1 = sort l2.
Proof.
  intros Hp. apply (Sorted_unique str_le); try apply sort_sorted.
  by rewrite !sort_perm.
Qed.

Lemma sort_length (l : list str) : length (sort l) = length l.
Proof. apply Permutation_length, sort_perm. Qed.

Lemma sort_In (l : list str) (x : str) : In x (sort l) <-> In x l.
Proof.
  split; apply Permutation_in; [apply sort_perm|symmetry; apply sort_perm].
Qed.

(** ** The traversal *)

Lemma fold_left_ext {A B} (f g : A -> B -> A) (l : list B) (a : A) :
  (forall a b, f a b = g a b) -> fold_left f l a = fold_left g l a.
Proof. intros E. revert a; induction l as [|b l IH]; intros a; simpl; [done|]. by rewrite E, IH. Qed.

(** A loop that only appends to its accumulator. *)
Lemma fold_left_appending {B} (f : list str -> B -> list str) (g : B -> list str)
    (l : list B) (acc : list str) :
  (forall acc b, f acc b = acc ++ g b) ->
  fold_left f l acc = acc ++ flat_map g l.
Proof.
  intros E. revert acc; induction l as [|b l IH]; intros acc; simpl.
  - by rewrite app_nil_r.
  - by rewrite IH, E, <- app_assoc.
Qed.

Lemma lookup_child_In (entries : list (str * node)) (name : str) (c : node) :
  lookup_child entries name = Some c -> In (name, c) entries.
Proof.
  induction entries as [|[n' c'] es IH]; simpl; [done|].
  case_bool_decide as E; [|by right; apply IH].
  intros [= ->]. subst. by left.
Qed.

Lemma lookup_child_unique (entries : list (str * node)) (name : str) (c : node) :
  NoDup (map fst entries) -> In (name, c) entries ->
  lookup_child entries name = Some c.
Proof.
  induction entries as [|[n' c'] es IH]; simpl; [done|].
  intros Hnd [E|Hin].
  - injection E as -> ->. by rewrite bool_decide_eq_true_2.
  - apply NoDup_cons in Hnd as [Hnot Hnd].
    rewrite bool_decide_eq_false_2; [by apply IH|].
    intros ->. apply Hnot. apply list_elem_of_In.
    change name with (fst (name, c)). by apply in_map.
Qed.

Section Traversal.

Variable h : host.
Variable lower : str -> str.

Lemma walk_with_Dir order top entries paths :
  walk_with h lower order top (Dir entries) paths =
  fold_left (fun paths d => enter h lower order top d (lookup_child entries d) paths)
            (order (dirnames entries))
            (add_files h lower top (order (filenames entries)) paths).
Proof.
  simpl. apply fold_left_ext. intros acc d. clear paths.
  induction entries as [|[n' c'] es IH]; simpl; [done|].
  case_bool_decide; [by destruct c'|apply IH].
Qed.

Lemma add_files_app root files paths :
  add_files h lower root files paths =
  paths ++ map (entry h root) (List.filter (is_midi lower) files).
Proof.
  unfold add_files. revert paths.
  induction files as [|f files IH]; intros paths; simpl.
  - by rewrite app_nil_r.
  - rewrite IH. destruct (is_midi lower f); simpl; [|done].
    by rewrite <- app_assoc.
Qed.

Lemma walk_with_app order n : forall top paths,
  walk_with h lower order top n paths = paths ++ walk_with h lower order top n [].
Proof.
  induction n as [| |entries IH] using node_ind; intros top paths;
    try (simpl; by rewrite app_nil_r).
  rewrite !walk_with_Dir.
  assert (forall acc d,
             enter h lower order top d (lookup_child entries d) acc =
             acc ++ enter h lower order top d (lookup_child entries d) []) as E.
  { intros acc d. destruct (lookup_child entries d) as [c|] eqn:L; simpl;
      [|by rewrite app_nil_r].
    apply lookup_child_In in L. rewrite List.Forall_forall in IH.
    specialize (IH _ L). simpl in IH.
    destruct c; try (by rewrite app_nil_r); apply IH. }
  rewrite !(fold_left_appending _ _ _ _ E), !add_files_app.
  simpl. by rewrite app_assoc.
Qed.

(** The directory loop as a whole: the entries of its own files, then
    what each directory of [dirs] contributes, in that order. *)
Lemma walk_with_Dir_flat order top entries :
  walk_with h lower order top (Dir entries) [] =
  map (entry h top) (List.filter (is_midi lower) (order (filenames entries)))
  ++ flat_map (fun d => enter h lower order top d (lookup_child entries d) [])
              (order (dirnames entries)).
Proof.
  rewrite walk_with_Dir.
  rewrite (fold_left_appending _
             (fun d => enter h lower order top d (lookup_child entries d) [])).
  - by rewrite add_files_app.
  - intros acc d. unfold enter.
    destruct (lookup_child entries d) as [[]|]; try (by rewrite app_nil_r);
      apply walk_with_app.
Qed.

Lemma filter_perm {A} (p : A -> bool) (l1 l2 : list A) :
  l1 ≡ₚ l2 -> List.filter p l1 ≡ₚ List.filter p l2.
Proof.
  induction 1 as [|x l1 l2 _ IH|x y l|l1 l2 l3 _ IH1 _ IH2]; simpl.
  - done.
  - destruct (p x); by rewrite IH.
  - destruct (p x), (p y); try done. apply perm_swap.
  - by rewrite IH1.
Qed.

(** Whatever order the body gives [dirs] and [files], the walk of a tree
    without repeated names collects the entries of its matching files. *)
Lemma walk_with_perm order :
  (forall l, order l ≡ₚ l) ->
  forall n, unique_names n = true ->
  forall top, walk_with h lower order top n [] ≡ₚ entries_of h lower top n.
Proof.
  intros Hord n. induction n as [| |entries IH] using node_ind;
    intros U top; try done.
  rewrite walk_with_Dir_flat. simpl in U.
  apply andb_prop in U as [Hnd U]. apply bool_decide_eq_true_1 in Hnd.
  rewrite (filter_perm _ _ _ (Hord (filenames entries))).
  rewrite (Permutation_flat_map _ (Hord (dirnames entries))).
  unfold entries_of. simpl files_under.
  enough (forall es, (forall e, In e es -> In e entries) ->
     map (entry h top) (List.filter (is_midi lower) (filenames es))
     ++ flat_map (fun d => enter h lower order top d (lookup_child entries d) [])
                 (dirnames es)
     ≡ₚ map (fun df => entry h (fold_left (join h) (fst df) top) (snd df))
          (List.filter (fun df => is_midi lower (snd df))
             (flat_map (fun e => if is_dir (snd e)
                                 then map (fun df => (fst e :: fst df, snd df))
                                          (files_under (snd e))
                                 else [([], fst e)]) es))) as Hes
    by (apply Hes; auto).
  induction es as [|[name c] es IHes]; intros Hsub; [done|].
  assert (In (name, c) entries) as Hin by (apply Hsub; by left).
  specialize (IHes (fun e He => Hsub e (or_intror He))).
  simpl. destruct (is_dir c) eqn:Hdir; simpl.
  - rewrite List.filter_app, map_app, <- IHes.
    rewrite Permutation_app_swap_app. apply Permutation_app; [|done].
    rewrite (lookup_child_unique _ _ _ Hnd Hin).
    rewrite List.Forall_forall in IH. specialize (IH _ Hin). simpl in IH.
    rewrite forallb_forall in U. specialize (U _ Hin). simpl in U.
    assert (forall l : list (list str * str),
               map (fun df => entry h (fold_left (join h) (fst df) top) (snd df))
                   (List.filter (fun df => is_midi lower (snd df))
                      (map (fun df => (name :: fst df, snd df)) l))
               = map (fun df => entry h (fold_left (join h) (fst df) (join h top name)) (snd df))
                     (List.filter (fun df => is_midi lower (snd df)) l)) as E.
    { induction l as [|[ds f] l IHl]; simpl; [done|].
      destruct (is_midi lower f); simpl; by rewrite IHl. }
    rewrite E. destruct c; try done. simpl. by apply IH.
  - destruct (is_midi lower name); simpl; by rewrite IHes.
Qed.

End Traversal.

(** ** Paths as strings *)

Section Paths.

Variable h : host.

Lemma split_path_nonempty (p : str) : split_path h p <> [].
Proof. destruct p as [|c p]; simpl; [done|]. destruct (is_sep h c); [done|]. by destruct (split_path h p). Qed.

Lemma split_path_app_sep (a b : str) (c : N) :
  is_sep h c = true -> split_path h (a ++ c :: b) = split_path h a ++ split_path h b.
Proof.
  intros Hc. induction a as [|x a IH]; simpl.
  - by rewrite Hc.
  - rewrite IH. destruct (is_sep h x); [done|].
    pose proof (split_path_nonempty a). by destruct (split_path h a).
Qed.

Lemma split_path_name (name : str) :
  forallb (fun c => negb (is_sep h c)) name = true -> split_path h name = [name].
Proof.
  induction name as [|c name IH]; simpl; [done|].
  intros [Hc Hn]%andb_prop. apply negb_true_iff in Hc. by rewrite Hc, IH.
Qed.

Lemma components_app_sep (a b : str) (c : N) :
  is_sep h c = true -> components h (a ++ c :: b) = components h a ++ components h b.
Proof. intros Hc. unfold components. by rewrite split_path_app_sep, List.filter_app. Qed.

Lemma components_name (name : str) :
  wf_name h name = true -> components h name = [name].
Proof.
  unfold wf_name, components.
  intros [[[H1 H2]%andb_prop _]%andb_prop Hn]%andb_prop.
  apply negb_true_iff, bool_decide_eq_false_1 in H1, H2.
  rewrite split_path_name by done. simpl.
  by rewrite !bool_decide_eq_false_2.
Qed.

Lemma os_sep_is_sep : is_sep h (os_sep h) = true.
Proof. unfold is_sep. by rewrite N.eqb_refl. Qed.

Lemma wf_name_nonempty (name : str) : wf_name h name = true -> name <> [].
Proof.
  unfold wf_name. intros [[[H1 _]%andb_prop _]%andb_prop _]%andb_prop.
  apply negb_true_iff, bool_decide_eq_false_1 in H1. done.
Qed.

Lemma wf_name_no_sep (name : str) (c : N) :
  wf_name h name = true -> In c name -> is_sep h c = false.
Proof.
  unfold wf_name. intros [_ Hn]%andb_prop Hin.
  rewrite forallb_forall in Hn. apply negb_true_iff. by apply Hn.
Qed.

Lemma ends_with_sep_name (a name : str) :
  wf_name h name = true -> ends_with_sep h (a ++ name) = false.
Proof.
  intros Hw. unfold ends_with_sep. rewrite rev_app_distr.
  pose proof (wf_name_nonempty _ Hw) as Hne.
  destruct (rev name) as [|c r] eqn:E.
  - apply (f_equal (@rev N)) in E. rewrite rev_involutive in E. done.
  - simpl. apply (wf_name_no_sep name); [done|].
    apply in_rev. rewrite E. by left.
Qed.

(** [join] of a path that does not end with a separator and a name. *)
Lemma join_name (a name : str) :
  a <> [] -> ends_with_sep h a = false -> wf_name h name = true ->
  join h a name = a ++ os_sep h :: name.
Proof.
  intros Ha He Hw. unfold join.
  pose proof (wf_name_nonempty _ Hw) as Hne.
  destruct name as [|c n]; [done|].
  rewrite (wf_name_no_sep _ c Hw) by (by left).
  rewrite He. by destruct a.
Qed.

(** The path [os.walk] builds from [p] down the directories [names]. *)
Lemma fold_join_names (names : list str) : forall (p : str),
  p <> [] -> ends_with_sep h p = false ->
  Forall (fun n => wf_name h n = true) names ->
  fold_left (join h) names p = p ++ flat_map (fun n => os_sep h :: n) names.
Proof.
  induction names as [|n names IH]; intros p Hp He Hall.
  - simpl. by rewrite app_nil_r.
  - apply Forall_cons in Hall as [Hn Hall].
    cbn [fold_left flat_map]. rewrite join_name by done.
    rewrite IH; [by rewrite <- app_assoc|by destruct p| |done].
    rewrite (cons_middle (os_sep h) p n), app_assoc.
    by apply ends_with_sep_name.
Qed.

Lemma components_names (names : list str) : forall (p : str),
  Forall (fun n => wf_name h n = true) names ->
  components h (p ++ flat_map (fun n => os_sep h :: n) names)
  = components h p ++ names.
Proof.
  induction names as [|n names IH]; intros p Hall.
  - simpl. by rewrite !app_nil_r.
  - apply Forall_cons in Hall as [Hn Hall].
    cbn [flat_map]. rewrite app_assoc, (IH _ Hall).
    rewrite components_app_sep by apply os_sep_is_sep.
    rewrite (components_name n) by done. by rewrite <- app_assoc.
Qed.

Lemma strip_common_prefix (l r : list str) : strip_common l (l ++ r) = ([], r).
Proof.
  induction l as [|x l IH]; simpl; [by destruct r|].
  by rewrite bool_decide_eq_true_2.
Qed.

Lemma join_with_flat_map (sep : N) (names : list str) (name : str) :
  join_with sep (name :: names) = name ++ flat_map (fun n => sep :: n) names.
Proof.
  revert name; induction names as [|n names IH]; intros name.
  - simpl. by rewrite app_nil_r.
  - change (join_with sep (name :: n :: names))
      with (name ++ sep :: join_with sep (n :: names)).
    by rewrite IH.
Qed.

Lemma fold_join_join_with (names : list str) (name : str) :
  wf_name h name = true -> Forall (fun n => wf_name h n = true) names ->
  fold_left (join h) names name = join_with (os_sep h) (name :: names).
Proof.
  intros Hw Hall. rewrite join_with_flat_map.
  apply fold_join_names; [by apply wf_name_nonempty| |done].
  by apply (ends_with_sep_name []).
Qed.

Lemma replace_name (name : str) :
  wf_name h name = true -> replace (os_sep h) slash name = name.
Proof.
  intros Hw. unfold replace.
  rewrite <- (map_id name) at 2. apply map_ext_in. intros c Hc.
  pose proof (wf_name_no_sep _ _ Hw Hc) as Hs. unfold is_sep in Hs.
  apply orb_false_elim in Hs as [-> _]. done.
Qed.

Lemma replace_join_with (names : list str) :
  Forall (fun n => wf_name h n = true) names ->
  replace (os_sep h) slash (join_with (os_sep h) names) = join_with slash names.
Proof.
  destruct names as [|name names]; [done|].
  intros [Hn Hall]%Forall_cons. rewrite !join_with_flat_map.
  unfold replace. rewrite map_app. fold (replace (os_sep h) slash name).
  rewrite replace_name by done. f_equal.
  induction Hall as [|n names Hw _ IH]; [done|].
  cbn [flat_map]. rewrite map_app, IH. cbn [map]. rewrite N.eqb_refl.
  fold (replace (os_sep h) slash n). by rewrite replace_name.
Qed.

Lemma components_base : components h base = [lit "assets"; lit "midi"].
Proof. by destruct h. Qed.

(** Lines 9-10 for a file [f] found [dirs] below the base directory: the
    names on the way and the name of the file, with forward slashes. *)
Lemma entry_below_base (dirs : list str) (f : str) :
  Forall (fun n => wf_name h n = true) dirs -> wf_name h f = true ->
  entry h (fold_left (join h) dirs base) f = join_with slash (dirs ++ [f]).
Proof.
  intros Hd Hf. unfold entry, relpath.
  assert (Forall (fun n => wf_name h n = true) (dirs ++ [f])) as Hall
    by (apply Forall_app; split; [done|by apply Forall_singleton]).
  change (join h (fold_left (join h) dirs base) f)
    with (fold_left (join h) [f] (fold_left (join h) dirs base)).
  rewrite <- fold_left_app.
  rewrite fold_join_names; [|done|by destruct h|done].
  rewrite components_names by done.
  rewrite components_base, strip_common_prefix. simpl.
  destruct (dirs ++ [f]) as [|x xs] eqn:E; [by destruct dirs|].
  apply Forall_cons in Hall as [Hx Hxs].
  rewrite fold_join_join_with by done.
  apply replace_join_with. by apply Forall_cons.
Qed.

End Paths.

(** ** The manifest of a well-formed tree *)

Lemma wf_name_Posix (h : host) (name : str) :
  wf_name h name = true -> wf_name Posix name = true.
Proof.
  unfold wf_name. intros [H123 Hn]%andb_prop. rewrite H123. simpl.
  rewrite forallb_forall in *. intros c Hc. specialize (Hn c Hc).
  apply negb_true_iff in Hn. apply negb_true_iff.
  unfold is_sep in *. apply orb_false_elim in Hn as [_ Hs].
  change (os_sep Posix) with slash. by rewrite Hs.
Qed.

(** The components of a canonical relative path are the names it was made
    from. *)
Lemma components_rel_path (h : host) (names : list str) :
  names <> [] -> Forall (fun n => wf_name h n = true) names ->
  components Posix (join_with slash names) = names.
Proof.
  destruct names as [|name names]; [done|]. intros _ Hall.
  assert (Forall (fun n => wf_name Posix n = true) (name :: names)) as Hp.
  { eapply Forall_impl; [exact Hall|]. apply wf_name_Posix. }
  apply Forall_cons in Hp as [Hn Hp].
  rewrite join_with_flat_map. change slash with (os_sep Posix) at 1.
  rewrite (components_names Posix names name Hp).
  by rewrite components_name.
Qed.

Lemma rel_path_inj (h : host) (df df' : list str * str) :
  Forall (fun n => wf_name h n = true) (fst df ++ [snd df]) ->
  Forall (fun n => wf_name h n = true) (fst df' ++ [snd df']) ->
  rel_path df = rel_path df' -> df = df'.
Proof.
  intros Hw Hw' E. unfold rel_path in E.
  apply (f_equal (components Posix)) in E.
  assert (forall (l : list str) x, l ++ [x] <> []) as Hne by (by intros []).
  rewrite !(components_rel_path h) in E by (done || apply Hne).
  apply app_inj_tail in E as [E1 E2].
  destruct df, df'; simpl in *; congruence.
Qed.

(** Every name on the way to a file of a well-formed tree is well formed. *)
Lemma files_under_wf (h : host) (n : node) :
  wf_names h n = true ->
  forall df, In df (files_under n) ->
  Forall (fun n => wf_name h n = true) (fst df ++ [snd df]).
Proof.
  induction n as [| |entries IH] using node_ind; try done.
  intros Hw df Hin. simpl in Hw, Hin.
  rewrite forallb_forall in Hw. rewrite List.Forall_forall in IH.
  apply in_flat_map in Hin as ([name c] & He & Hin).
  specialize (Hw _ He). specialize (IH _ He). simpl in *.
  apply andb_prop in Hw as [Hname Hc].
  destruct (is_dir c).
  - apply in_map_iff in Hin as ([ds f] & <- & Hin). simpl.
    apply Forall_cons. split; [done|]. by apply (IH Hc (ds, f)).
  - destruct Hin as [<-|[]]. simpl. by apply Forall_singleton.
Qed.

Section Manifest.

Variable h : host.
Variable lower : str -> str.

Lemma entries_of_base (n : node) :
  wf_names h n = true ->
  entries_of h lower base n
  = map rel_path (List.filter (fun df => is_midi lower (snd df)) (files_under n)).
Proof.
  intros Hw. unfold entries_of. apply map_ext_in. intros [ds f] Hin.
  apply filter_In in Hin as [Hin _].
  pose proof (files_under_wf h n Hw _ Hin) as Hall. simpl in Hall.
  apply Forall_app in Hall as [Hds Hf].
  apply (proj1 (Forall_singleton _ _)) in Hf.
  unfold rel_path. simpl. by apply entry_below_base.
Qed.

(** The manifest of a well-formed tree: the canonical relative paths of the
    files with a matching name, sorted. *)
Lemma manifest_well_formed (n : node) :
  well_formed h n = true ->
  manifest h lower (Some n)
  = sort (map rel_path
              (List.filter (fun df => is_midi lower (snd df)) (files_under n))).
Proof.
  intros [Hu Hw]%andb_prop. unfold manifest, collect, walk.
  apply sort_of_perm. rewrite <- entries_of_base by done.
  apply walk_with_perm; [apply sort_perm|done].
Qed.

Lemma In_manifest (n : node) (dirs : list str) (f : str) :
  well_formed h n = true -> In (dirs, f) (files_under n) ->
  In (rel_path (dirs, f)) (manifest h lower (Some n)) <-> is_midi lower f = true.
Proof.
  intros Hwf Hin. rewrite manifest_well_formed by done.
  rewrite sort_In, in_map_iff. pose proof Hwf as [_ Hw]%andb_prop. split.
  - intros (df' & E & [Hin' Hm]%filter_In).
    apply (rel_path_inj h) in E; [by subst|by apply (files_under_wf h n)..].
  - intros Hm. exists (dirs, f). split; [done|]. by apply filter_In.
Qed.

End Manifest.

(** ** What every entry looks like *)

Lemma fold_left_invariant {A B} (P : A -> Prop) (f : A -> B -> A) (l : list B) (a : A) :
  (forall a b, P a -> P (f a b)) -> P a -> P (fold_left f l a).
Proof. intros Hf. revert a; induction l as [|b l IH]; intros a Ha; simpl; auto. Qed.

Lemma walk_with_Forall (h : host) (lower : str -> str) order (Q : str -> Prop) (n : node) :
  (forall root f, Q (entry h root f)) ->
  forall top paths, Forall Q paths -> Forall Q (walk_with h lower order top n paths).
Proof.
  intros HQ. induction n as [| |entries IH] using node_ind; intros top paths Hp;
    try done.
  rewrite walk_with_Dir. apply fold_left_invariant.
  - intros acc d Hacc. unfold enter.
    destruct (lookup_child entries d) as [c|] eqn:L; [|done].
    apply lookup_child_In in L. rewrite List.Forall_forall in IH.
    by apply (IH _ L).
  - rewrite add_files_app. apply Forall_app. split; [done|].
    apply List.Forall_forall. intros p (f & <- & _)%in_map_iff. apply HQ.
Qed.

Lemma manifest_Forall (h : host) (lower : str -> str) (Q : str -> Prop) root :
  (forall root f, Q (entry h root f)) -> Forall Q (manifest h lower root).
Proof.
  intros HQ. unfold manifest.
  assert (Forall Q (collect h lower root)) as HF.
  { destruct root as [n|]; [|done]. by apply walk_with_Forall. }
  rewrite List.Forall_forall in *. intros p Hp. apply HF. by apply sort_In.
Qed.

Lemma replace_not_In (old new : N) (s : str) :
  old <> new -> ~ In old (replace old new s).
Proof.
  intros Hne (c & E & _)%in_map_iff.
  destruct (N.eqb_spec c old); congruence.
Qed.

Lemma lower_ascii_only_on_ascii : lower_on_ascii lower_ascii_only.
Proof. by intros s _. Qed.

(** With ASCII names only, [str.lower()] may be read as its ASCII part. *)
Lemma manifest_on_ascii (h : host) (lower : str -> str) (n : node) :
  lower_on_ascii lower -> well_formed h n = true ->
  forallb (fun df => ascii_only (snd df)) (files_under n) = true ->
  manifest h lower (Some n) = manifest h lower_ascii_only (Some n).
Proof.
  intros Hl Hwf Ha. rewrite !manifest_well_formed by done.
  do 2 f_equal. apply filter_ext_in. intros [ds f] Hin.
  rewrite forallb_forall in Ha. specialize (Ha _ Hin). simpl in *.
  unfold is_midi. by rewrite (Hl f Ha).
Qed.

(** C3: the array written to the manifest is sorted ascending by code-point
    comparison of the normalised relative paths, on every host and for
    every tree; for the tree that holds exactly [x/y/z/song.mid] and
    [x/song2.midi] it is ["x/song2.midi"; "x/y/z/song.mid"]. *)
Theorem manifest_is_sorted (h : host) (lower : str -> str) :
  (forall root, Sorted str_le (manifest h lower root))
  /\ (lower_on_ascii lower ->
      manifest h lower (Some scenario_D)
      = [lit "x/song2.midi"; lit "x/y/z/song.mid"]).
Proof.
  split.
  - intros root. apply sort_sorted.
  - intros Hl. rewrite manifest_on_ascii by (done || by destruct h).
    by destruct h.
Qed.

Lemma manifest_is_sorted_witness :
  (forall root, Sorted str_le (manifest Nt lower_ascii_only root))
  /\ manifest Nt lower_ascii_only (Some scenario_D)
     = [lit "x/song2.midi"; lit "x/y/z/song.mid"].
Proof.
  destruct (manifest_is_sorted Nt lower_ascii_only) as [Hs Hd].
  split; [exact Hs|]. apply Hd. intros s _. reflexivity.
Defined.

(** On a host whose separator is the forward slash, a backslash is an
    ordinary character of a name and stays in the entry. *)
Example posix_keeps_backslash_in_name :
  manifest Posix lower_ascii_only (Some (Dir [ (lit "a\b.mid", File) ]))
  = [lit "a\b.mid"].
Proof. reflexivity. Qed.

(** C5: on a host whose separator is the backslash, no entry of the
    manifest contains a backslash: every separator has become a forward
    slash. On every host, an entry of a well-formed tree is the names from
    the base directory down to a file with forward slashes between them. *)
Theorem entries_use_forward_slashes (h : host) (lower : str -> str)
    (root : option node) (p : str) :
  In p (manifest h lower root) ->
  (os_sep h = backslash -> ~ In backslash p)
  /\ (forall t, root = Some t -> well_formed h t = true ->
      exists dirs f, In (dirs, f) (files_under t)
                     /\ p = join_with slash (dirs ++ [f])).
Proof.
  intros Hp. split.
  - intros Hsep.
    pose proof (manifest_Forall h lower (fun p => ~ In backslash p) root) as HF.
    rewrite List.Forall_forall in HF. apply HF; [|done].
    intros top f. unfold entry. rewrite Hsep. by apply replace_not_In.
  - intros t -> Hwf. rewrite manifest_well_formed in Hp by done.
    apply sort_In, in_map_iff in Hp as ([dirs f] & <- & [Hin _]%filter_In).
    by exists dirs, f.
Qed.

Lemma entries_use_forward_slashes_witness :
  (os_sep Nt = backslash -> ~ In backslash (lit "sub/B.MIDI"))
  /\ (forall t, Some scenario_A = Some t -> well_formed Nt t = true ->
      exists dirs f, In (dirs, f) (files_under t)
                     /\ lit "sub/B.MIDI" = join_with slash (dirs ++ [f])).
Proof.
  apply (entries_use_forward_slashes Nt lower_ascii_only (Some scenario_A)
           (lit "sub/B.MIDI")).
  vm_compute. tauto.
Defined.

(** ** The order of enumeration *)

Lemma forallb_perm {A} (p : A -> bool) (l1 l2 : list A) :
  l1 ≡ₚ l2 -> forallb p l1 = true -> forallb p l2 = true.
Proof.
  intros Hp. rewrite !forallb_forall. intros H x Hx. apply H.
  apply list_elem_of_In. rewrite Hp. by apply list_elem_of_In.
Qed.

Lemma reordered_is_dir (a b : node) : reordered a b -> is_dir a = is_dir b.
Proof. induction 1; try done. congruence. Qed.

Lemma reordered_unique_names (a b : node) :
  reordered a b -> unique_names a = true -> unique_names b = true.
Proof.
  induction 1 as [n|es es' Hp|name c c' es1 es2 _ IH|a b c _ IH1 _ IH2]; try done.
  - simpl. intros [Hnd Hall]%andb_prop. apply bool_decide_eq_true_1 in Hnd.
    apply andb_true_intro. split.
    + apply bool_decide_eq_true_2. by rewrite <- Hp.
    + by apply (forallb_perm _ es).
  - simpl. rewrite !map_app, !forallb_app. simpl.
    intros [Hnd [H1 [Hc H2]%andb_prop]%andb_prop]%andb_prop.
    rewrite Hnd, H1, H2, (IH Hc). done.
  - auto.
Qed.

Lemma reordered_files_under (a b : node) :
  reordered a b -> files_under a ≡ₚ files_under b.
Proof.
  induction 1 as [n|es es' Hp|name c c' es1 es2 Hr IH|a b c _ IH1 _ IH2]; try done.
  - simpl. by apply Permutation_flat_map.
  - simpl. rewrite !flat_map_app. simpl.
    rewrite (reordered_is_dir _ _ Hr).
    apply Permutation_app; [done|]. apply Permutation_app; [|done].
    destruct (is_dir c'); [|done]. by apply Permutation_map.
  - by rewrite IH1.
Qed.

Lemma reordered_entries (pre es : list (str * node)) (g : node -> node) :
  Forall (fun e => reordered (snd e) (g (snd e))) es ->
  reordered (Dir (pre ++ es)) (Dir (pre ++ map (fun e => (fst e, g (snd e))) es)).
Proof.
  intros Hall. revert pre.
  induction Hall as [|[name c] es Hc _ IH]; intros pre; [apply reordered_same|].
  simpl in *. eapply reordered_then.
  - apply (reordered_below name c (g c)), Hc.
  - rewrite (cons_middle (name, g c) pre es), app_assoc.
    rewrite (cons_middle (name, g c) pre (map _ es)), (app_assoc pre).
    apply IH.
Qed.

Lemma reordered_mirror (n : node) : reordered n (mirror n).
Proof.
  induction n as [| |entries IH] using node_ind; try apply reordered_same.
  simpl. eapply reordered_then.
  - apply (reordered_entries [] entries mirror IH).
  - apply reordered_here. simpl. apply Permutation_rev.
Qed.

(** Reordering the entries of directories leaves the manifest as it is. *)
Lemma manifest_reordered (h : host) (lower : str -> str) (t t' : node) :
  unique_names t = true -> reordered t t' ->
  manifest h lower (Some t') = manifest h lower (Some t).
Proof.
  intros Hu Hr. unfold manifest, collect, walk. apply sort_of_perm.
  rewrite !(walk_with_perm h lower sort sort_perm)
    by (done || by apply (reordered_unique_names t)).
  unfold entries_of. apply Permutation_map, filter_perm.
  symmetry. by apply reordered_files_under.
Qed.

(** C9: the manifest does not depend on the order in which directories
    enumerate their entries. Two trees with the same files in different
    enumeration orders give the same sorted array; so does the tree
    enumerated the other way round; and the sorting of [dirs] and [files]
    at each level changes nothing in it. *)
Theorem manifest_order_independent (h : host) (lower : str -> str) (t t' : node) :
  unique_names t = true -> reordered t t' ->
  manifest h lower (Some t') = manifest h lower (Some t)
  /\ manifest h lower (Some (mirror t)) = manifest h lower (Some t)
  /\ sort (walk_with h lower (fun l => l) base t []) = manifest h lower (Some t).
Proof.
  intros Hu Hr.
  split; [by apply manifest_reordered|].
  split; [apply manifest_reordered; [done|apply reordered_mirror]|].
  unfold manifest, collect, walk. apply sort_of_perm.
  rewrite (walk_with_perm h lower (fun l => l) (fun l => reflexivity l)) by done.
  by rewrite (walk_with_perm h lower sort sort_perm).
Qed.

Lemma manifest_order_independent_witness :
  manifest Posix lower_ascii_only
    (Some (Dir [ (lit "a.mid", File); (lit "sub", Dir [ (lit "B.MIDI", File) ]) ]))
  = manifest Posix lower_ascii_only
    (Some (Dir [ (lit "sub", Dir [ (lit "B.MIDI", File) ]); (lit "a.mid", File) ])).
Proof.
  refine (proj1 (manifest_order_independent Posix lower_ascii_only
            (Dir [ (lit "sub", Dir [ (lit "B.MIDI", File) ]); (lit "a.mid", File) ])
            (Dir [ (lit "a.mid", File); (lit "sub", Dir [ (lit "B.MIDI", File) ]) ])
            _ _)).
  - reflexivity.
  - apply reordered_here. apply perm_swap.
Defined.

(** ** The filter *)

Lemma startswith_In (s p : str) (c : N) :
  startswith s p = true -> In c p -> In c s.
Proof.
  revert s; induction p as [|y p IH]; intros [|x s]; simpl; try done.
  intros [Hxy Hs]%andb_prop [<-|Hc].
  - left. by apply N.eqb_eq.
  - right. by apply IH.
Qed.

Lemma endswith_In (s suffix : str) (c : N) :
  endswith s suffix = true -> In c suffix -> In c s.
Proof.
  unfold endswith. intros Hs Hc. apply in_rev.
  apply (startswith_In _ _ _ Hs). by apply in_rev in Hc.
Qed.

Lemma is_midi_iff (lower : str -> str) (f : str) :
  is_midi lower f = true <->
  endswith (lower f) (lit ".mid") = true \/ endswith (lower f) (lit ".midi") = true.
Proof. unfold is_midi. apply orb_true_iff. Qed.

(** A name of ASCII characters without a dot never matches. *)
Lemma is_midi_needs_dot (lower : str -> str) (f : str) :
  lower_on_ascii lower -> ascii_only f = true -> ~ In dot f -> is_midi lower f = false.
Proof.
  intros Hl Ha Hdot. apply not_true_is_false. intros Hm.
  apply is_midi_iff in Hm. rewrite (Hl f Ha) in Hm.
  assert (In dot (map ascii_lower f)) as (c & Hc & Hin)%in_map_iff.
  { destruct Hm as [Hm|Hm]; apply (endswith_In _ _ _ Hm); by left. }
  apply Hdot. unfold ascii_lower in Hc.
  destruct ((65 <=? c) && (c <=? 90)) eqn:E; [|by subst].
  apply andb_prop in E as [E1%N.leb_le E2]. unfold dot in Hc. lia.
Qed.

Lemma is_midi_on_ascii (lower : str -> str) (f : str) :
  lower_on_ascii lower -> ascii_only f = true ->
  is_midi lower f = is_midi lower_ascii_only f.
Proof. intros Hl Ha. unfold is_midi. by rewrite (Hl f Ha). Qed.

(** C2 as it is stated fails on the script: the file [locked/in.mid] lies
    under the base directory and its name ends with [.mid], yet it is not
    in the manifest, because [os.walk] yields nothing for a directory it
    cannot list; and the run ends with exit code 0. *)
Lemma file_in_closed_directory_is_left_out :
  In ([lit "locked"], lit "in.mid") (files_under (opened locked_tree))
  /\ endswith (lower_ascii_only (lit "in.mid")) (lit ".mid") = true
  /\ ~ In (lit "locked/in.mid")
         (manifest Posix lower_ascii_only (Some (seen locked_tree)))
  /\ manifest Posix lower_ascii_only (Some (seen locked_tree)) = [lit "a.mid"]
  /\ exit_code (run Posix lower_ascii_only
                  (World (Some (seen locked_tree)) (Openable None) None)) = 0
  /\ ~ (In (lit "locked/in.mid")
          (manifest Posix lower_ascii_only (Some (seen locked_tree)))
        <-> endswith (lower_ascii_only (lit "in.mid")) (lit ".mid") = true
            \/ endswith (lower_ascii_only (lit "in.mid")) (lit ".midi") = true).
Proof.
  assert (~ In (lit "locked/in.mid")
            (manifest Posix lower_ascii_only (Some (seen locked_tree)))) as Hout.
  { vm_compute. intros [E|[]]. discriminate E. }
  split; [vm_compute; tauto|]. split; [reflexivity|]. split; [exact Hout|].
  split; [reflexivity|]. split; [reflexivity|].
  intros [_ Hin]. apply Hout, Hin. left. reflexivity.
Qed.

(** C2, amended: a file that the walk reaches (it lies in the base
    directory or below it in directories that are all listed) has its
    entry in the manifest exactly when its name, lowercased, ends with
    [.mid] or [.midi]. A name without a dot, another extension or a longer
    suffix such as [.midX] is left out; [.MID] is taken, and the entry
    keeps the name as it is written (scenario A). *)
Theorem filter_is_suffix_match (h : host) (lower : str -> str) (t : node) :
  (well_formed h t = true ->
   forall dirs f, In (dirs, f) (files_under t) ->
     (In (join_with slash (dirs ++ [f])) (manifest h lower (Some t))
      <-> endswith (lower f) (lit ".mid") = true
          \/ endswith (lower f) (lit ".midi") = true))
  /\ (lower_on_ascii lower ->
      (forall f, ascii_only f = true -> ~ In dot f -> is_midi lower f = false)
      /\ is_midi lower (lit "c.txt") = false
      /\ is_midi lower (lit "song.midX") = false
      /\ is_midi lower (lit "song.MID") = true
      /\ manifest h lower (Some scenario_A) = [lit "a.mid"; lit "sub/B.MIDI"]).
Proof.
  split.
  - intros Hwf dirs f Hin. rewrite <- is_midi_iff.
    by apply (In_manifest h lower t dirs f).
  - intros Hl. repeat split.
    + intros f. by apply is_midi_needs_dot.
    + by rewrite is_midi_on_ascii.
    + by rewrite is_midi_on_ascii.
    + by rewrite is_midi_on_ascii.
    + rewrite manifest_on_ascii by (done || by destruct h). by destruct h.
Qed.

Lemma filter_is_suffix_match_witness :
  (In (lit "sub/B.MIDI") (manifest Posix lower_ascii_only (Some scenario_A))
   <-> endswith (lower_ascii_only (lit "B.MIDI")) (lit ".mid") = true
       \/ endswith (lower_ascii_only (lit "B.MIDI")) (lit ".midi") = true)
  /\ is_midi lower_ascii_only (lit "song.MID") = true
  /\ manifest Posix lower_ascii_only (Some scenario_A)
     = [lit "a.mid"; lit "sub/B.MIDI"].
Proof.
  destruct (filter_is_suffix_match Posix lower_ascii_only scenario_A) as [Hiff Hex].
  split.
  - apply (Hiff eq_refl [lit "sub"] (lit "B.MIDI")). vm_compute. tauto.
  - apply Hex. intros s _. reflexivity.
Defined.

(** C10: a file whose whole name is [.mid] or [.midi] has no extension
    under the conventional split of a name, and is in the manifest all the
    same: the filter looks at the end of the name, not at an extension. *)
Theorem bare_suffix_name_is_included (h : host) (lower : str -> str)
    (t : node) (dirs : list str) (f : str) :
  lower_on_ascii lower -> well_formed h t = true ->
  f = lit ".mid" \/ f = lit ".midi" ->
  In (dirs, f) (files_under t) ->
  splitext f = (f, [])
  /\ is_midi lower f = true
  /\ In (rel_path (dirs, f)) (manifest h lower (Some t)).
Proof.
  intros Hl Hwf Hf Hin.
  assert (is_midi lower f = true) as Hm
    by (destruct Hf as [-> | ->]; by rewrite is_midi_on_ascii).
  split; [by destruct Hf as [-> | ->]|]. split; [done|].
  by apply In_manifest.
Qed.

Lemma bare_suffix_name_is_included_witness :
  splitext (lit ".midi") = (lit ".midi", [])
  /\ is_midi lower_ascii_only (lit ".midi") = true
  /\ In (lit "sub/.midi")
        (manifest Posix lower_ascii_only
           (Some (Dir [ (lit ".mid", File); (lit "sub", Dir [ (lit ".midi", File) ]) ]))).
Proof.
  refine (bare_suffix_name_is_included Posix lower_ascii_only
            (Dir [ (lit ".mid", File); (lit "sub", Dir [ (lit ".midi", File) ]) ])
            [lit "sub"] (lit ".midi") _ _ _ _).
  - intros s _. reflexivity.
  - reflexivity.
  - right. reflexivity.
  - vm_compute. tauto.
Defined.

(** ** The serialisation *)

Lemma unhex_hex_digit (d : N) : d < 16 -> unhex (hex_digit d) = Some d.
Proof.
  intros Hd. unfold unhex, hex_digit.
  destruct (N.ltb_spec d 10).
  - replace ((48 <=? 48 + d) && (48 + d <=? 57)) with true
      by (symmetry; apply andb_true_intro; split; apply N.leb_le; lia).
    f_equal. lia.
  - replace ((48 <=? 87 + d) && (87 + d <=? 57)) with false
      by (symmetry; apply andb_false_intro2, N.leb_gt; lia).
    replace ((97 <=? 87 + d) && (87 + d <=? 102)) with true
      by (symmetry; apply andb_true_intro; split; apply N.leb_le; lia).
    f_equal. lia.
Qed.

Lemma loads_backslash (rest acc : str) (items : list str) :
  loads_from (92 :: rest) (InString acc) items = loads_from rest (Escape acc) items.
Proof. done. Qed.

Lemma loads_u (rest acc : str) (items : list str) :
  loads_from (117 :: rest) (Escape acc) items = loads_from rest (Hex acc []) items.
Proof. done. Qed.

Lemma loads_hex (c d : N) (rest acc : str) (digits : list N) (items : list str) :
  unhex c = Some d ->
  loads_from (c :: rest) (Hex acc digits) items
  = match digits with
    | [d1; d2; d3] =>
        loads_from rest (InString (acc ++ [((d1 * 16 + d2) * 16 + d3) * 16 + d])) items
    | _ => loads_from rest (Hex acc (digits ++ [d])) items
    end.
Proof. intros E. simpl. by rewrite E. Qed.

(** The reader undoes [encode_basestring]. *)
Lemma loads_string (s : str) : forall (acc : str) (rest : str) (items : list str),
  loads_from (flat_map escape s ++ quote :: rest) (InString acc) items
  = loads_from rest Item (items ++ [acc ++ s]).
Proof.
  induction s as [|c s IH]; intros acc rest items.
  - simpl. by rewrite app_nil_r.
  - cbn [flat_map]. rewrite <- app_assoc.
    replace (acc ++ c :: s) with ((acc ++ [c]) ++ s) by (by rewrite <- app_assoc).
    rewrite <- IH. unfold escape.
    destruct (N.eqb_spec c 34) as [->|H34]; [done|].
    destruct (N.eqb_spec c 92) as [->|H92]; [done|].
    destruct (N.eqb_spec c 10) as [->|H10]; [done|].
    destruct (N.eqb_spec c 13) as [->|H13]; [done|].
    destruct (N.eqb_spec c 9) as [->|H9]; [done|].
    destruct (N.eqb_spec c 8) as [->|H8]; [done|].
    destruct (N.eqb_spec c 12) as [->|H12]; [done|].
    destruct (N.ltb_spec c 32) as [Hlt|Hge].
    + assert (c / 16 < 16) as Hq by (apply N.Div0.div_lt_upper_bound; lia).
      assert (c mod 16 < 16) as Hr by (apply N.mod_lt; lia).
      change (lit "\u00") with [92; 117; 48; 48]. cbn [app].
      rewrite loads_backslash, loads_u.
      rewrite !(@loads_hex 48 0) by done. cbn [app].
      rewrite (@loads_hex _ _ _ _ _ _ (unhex_hex_digit _ Hq)). cbn [app].
      rewrite (@loads_hex _ _ _ _ _ _ (unhex_hex_digit _ Hr)).
      replace (((0 * 16 + 0) * 16 + c / 16) * 16 + c mod 16) with c; [done|].
      pose proof (N.div_mod c 16). lia.
    + cbn [app loads_from]. unfold quote, backslash.
      destruct (N.eqb_spec c 34); [done|]. destruct (N.eqb_spec c 92); [done|].
      destruct (N.ltb_spec c 32); [lia|done].
Qed.

(** The layout of the text: the opening bracket, each item on a line of its
    own after two spaces, a comma after each but the last, the closing
    bracket on the last line. *)
Lemma dumps_cons (p : str) (ps : list str) :
  dumps (p :: ps)
  = lit "[" ++ newline_indent ++ encode_basestring p
    ++ concat (map (fun v => lit "," ++ newline_indent ++ encode_basestring v) ps)
    ++ [newline] ++ lit "]".
Proof.
  unfold dumps, iterencode. cbn [concat]. rewrite concat_app.
  rewrite <- !app_assoc. done.
Qed.

Lemma loads_open (rest : str) (items : list str) :
  loads_from (lit "[" ++ newline_indent ++ quote :: rest) Start items
  = loads_from rest (InString []) items.
Proof. done. Qed.

Lemma loads_separator (rest : str) (items : list str) :
  loads_from (lit "," ++ newline_indent ++ quote :: rest) Item items
  = loads_from rest (InString []) items.
Proof. done. Qed.

Lemma loads_items (ps : list str) : forall (items : list str),
  loads_from (concat (map (fun v => lit "," ++ newline_indent ++ encode_basestring v) ps)
              ++ [newline] ++ lit "]") Item items
  = Some (items ++ ps).
Proof.
  induction ps as [|p ps IH]; intros items.
  - simpl. by rewrite app_nil_r.
  - cbn [map concat]. unfold encode_basestring at 1.
    rewrite <- !app_assoc. rewrite <- !app_comm_cons, <- app_assoc.
    rewrite loads_separator. cbn [app].
    rewrite loads_string, IH. by rewrite <- app_assoc.
Qed.

(** What [json.dump] writes is a JSON array that holds the strings of
    [paths], in their order. *)
Lemma loads_dumps (paths : list str) : loads (dumps paths) = Some paths.
Proof.
  destruct paths as [|p ps]; [done|].
  rewrite dumps_cons. unfold loads, encode_basestring at 1.
  rewrite <- !app_comm_cons, <- app_assoc.
  rewrite loads_open. cbn [app].
  rewrite loads_string. apply (loads_items ps [p]).
Qed.

(** ** The run *)

Lemma utf8_app (a b : str) :
  utf8 (a ++ b)
  = match utf8 a, utf8 b with
    | Some x, Some y => Some (x ++ y)
    | _, _ => None
    end.
Proof.
  induction a as [|c a IH]; simpl.
  - by destruct (utf8 b).
  - rewrite IH. destruct (utf8_char c), (utf8 a), (utf8 b); try done.
    by rewrite app_assoc.
Qed.

Lemma translate_newlines_app (h : host) (a b : str) :
  translate_newlines h (a ++ b) = translate_newlines h a ++ translate_newlines h b.
Proof. destruct h; simpl; [done|apply flat_map_app]. Qed.

(** When every chunk could be encoded, the bytes written are the encoding
    of the whole text. *)
Lemma write_chunks_encoded (h : host) (chunks : list str) :
  forall (sofar bytes : list byte),
  write_chunks h chunks sofar = (bytes, true) ->
  exists bs, utf8 (translate_newlines h (concat chunks)) = Some bs
             /\ bytes = sofar ++ bs.
Proof.
  induction chunks as [|chunk chunks IH]; intros sofar bytes; simpl.
  - intros [= <-]. exists []. split; [by destruct h|by rewrite app_nil_r].
  - destruct (utf8 (translate_newlines h chunk)) as [b|] eqn:E; [|done].
    intros (bs & Hbs & ->)%IH. exists (b ++ bs).
    rewrite translate_newlines_app, utf8_app, E, Hbs.
    by rewrite app_assoc.
Qed.

Section Run.

Variable h : host.
Variable lower : str -> str.

(** A run either fails, with exit code 1 and nothing on the standard
    output, or ends with exit code 0 after writing the whole manifest and
    the summary line. *)
Lemma run_cases (w : world) :
  (exit_code (run h lower w) = 1 /\ stdout (run h lower w) = [])
  \/ (exists bytes,
        to_write h lower (root w) = (bytes, true)
        /\ unwritable h lower w = false
        /\ run h lower w
           = Result 0 (summary (length (manifest h lower (root w)))) (Some bytes)).
Proof.
  unfold run, unwritable, to_write.
  destruct (output w) as [|[r|]]; [by left| |];
    destruct (write_chunks h (iterencode (manifest h lower (root w))) [])
      as [bytes encoded] eqn:E; simpl.
  - destruct encoded; [|by left]. simpl.
    case_bool_decide; [|by left]. right. by exists bytes.
  - destruct encoded; [|by left]. right. by exists bytes.
Qed.

Lemma run_unwritable (w : world) :
  unwritable h lower w = true ->
  exit_code (run h lower w) = 1 /\ stdout (run h lower w) = [].
Proof.
  intros Hu. destruct (run_cases w) as [|(bytes & _ & Hw & _)]; [done|].
  congruence.
Qed.

Lemma summary_nonempty (count : nat) : summary count <> [].
Proof. done. Qed.

Lemma run_success (w : world) :
  stdout (run h lower w) <> [] ->
  exists bytes,
    utf8 (translate_newlines h (dumps (manifest h lower (root w)))) = Some bytes
    /\ run h lower w
       = Result 0 (summary (length (manifest h lower (root w)))) (Some bytes).
Proof.
  intros Hout. destruct (run_cases w) as [[_ E]|(bytes & Hb & _ & Hr)]; [done|].
  exists bytes. split; [|done].
  apply write_chunks_encoded in Hb as (bs & Hbs & ->). done.
Qed.

End Run.

(** ** A base directory that cannot be read *)

Lemma manifest_unreadable (h : host) (lower : str -> str) (root : option node) :
  root_unreadable root = true -> manifest h lower root = [].
Proof. by destruct root as [[| |es]|]. Qed.

(** The same holds further down: a directory that cannot be listed is
    passed over, and the run reports the files it has seen. *)
Example closed_directory_is_skipped :
  run Posix lower_ascii_only
    (World (Some (Dir [ (lit "locked", Closed); (lit "a.mid", File) ]))
           (Openable None) None)
  = Result 0 (lit "Generated manifest with 1 MIDI files." ++ [newline])
           (Some (map byte_of [91; 10; 32; 32; 34; 97; 46; 109; 105; 100; 34; 10; 93])).
Proof. reflexivity. Qed.

(** C1 as it is stated fails on the script: with no base directory at all
    and an output path that can be written, the run ends with exit code 0,
    and it has written the output file. *)
Lemma missing_root_is_not_fatal :
  root_unreadable None = true
  /\ run Posix lower_ascii_only (World None (Openable None) None)
     = Result 0 (lit "Generated manifest with 0 MIDI files." ++ [newline])
              (Some (map byte_of [91; 93]))
  /\ ~ fails_without_writing (World None (Openable None) None)
         (run Posix lower_ascii_only (World None (Openable None) None)).
Proof.
  split; [done|]. split; [done|]. by intros [Hcode _].
Qed.

(** C1, amended: when the base directory does not exist, cannot be read or
    is not a directory, the walk yields nothing and no error is raised; if
    the output path can be written, the run writes the empty array [[]]
    there, prints the summary line for 0 files and ends with exit code 0. *)
Theorem unreadable_root_gives_empty_manifest (h : host) (lower : str -> str)
    (w : world) :
  root_unreadable (root w) = true -> unwritable h lower w = false ->
  manifest h lower (root w) = []
  /\ run h lower w
     = Result 0 (lit "Generated manifest with 0 MIDI files." ++ [newline])
              (Some (map byte_of [91; 93])).
Proof.
  intros Hr Hw. pose proof (manifest_unreadable h lower _ Hr) as Hm.
  split; [done|].
  unfold run, unwritable, to_write in *. rewrite Hm in *.
  destruct (output w) as [|[r|]]; [done| |by destruct h].
  assert (write_chunks h (iterencode []) [] = (map byte_of [91; 93], true)) as E
    by (by destruct h).
  rewrite E in *. simpl in Hw. apply negb_false_iff in Hw.
  simpl. by rewrite Hw.
Qed.

Lemma unreadable_root_gives_empty_manifest_witness :
  manifest Nt lower_ascii_only (root (World (Some File) (Openable (Some 2%nat)) None)) = []
  /\ run Nt lower_ascii_only (World (Some File) (Openable (Some 2%nat)) None)
     = Result 0 (lit "Generated manifest with 0 MIDI files." ++ [newline])
              (Some (map byte_of [91; 93])).
Proof.
  apply (unreadable_root_gives_empty_manifest Nt lower_ascii_only
           (World (Some File) (Openable (Some 2%nat)) None)); reflexivity.
Defined.

(** ** Two runs *)

(** C4: with the tree under the base directory unchanged, a second run
    leaves exactly what the first one left: the same bytes in the output
    file, the same summary, the same exit code. What is written depends
    neither on what the output file held before nor on the order in which
    the directories enumerate their entries. *)
Theorem rerun_is_identical (h : host) (lower : str -> str) (w : world) :
  run h lower (after w (run h lower w)) = run h lower w
  /\ (forall room before before',
        run h lower (World (root w) (Openable room) before)
        = run h lower (World (root w) (Openable room) before'))
  /\ (forall t t', root w = Some t -> unique_names t = true -> reordered t t' ->
        run h lower (World (Some t') (output w) (manifest_file w)) = run h lower w).
Proof.
  split; [|split; [done|]].
  - unfold run, after. simpl. destruct (output w) as [|room]; [done|].
    by destruct (write_chunks h (iterencode (manifest h lower (root w))) []).
  - intros t t' Hroot Hu Hr. unfold run. simpl.
    by rewrite Hroot, (manifest_reordered h lower t t').
Qed.

Lemma rerun_is_identical_witness :
  run Posix lower_ascii_only
    (World (Some (Dir [ (lit "sub", Dir [ (lit "B.MIDI", File) ]); (lit "a.mid", File) ]))
           (Openable None) None)
  = run Posix lower_ascii_only
      (World (Some (Dir [ (lit "a.mid", File); (lit "sub", Dir [ (lit "B.MIDI", File) ]) ]))
             (Openable None) None).
Proof.
  refine (proj2 (proj2 (rerun_is_identical Posix lower_ascii_only
            (World (Some (Dir [ (lit "a.mid", File); (lit "sub", Dir [ (lit "B.MIDI", File) ]) ]))
                   (Openable None) None)))
            _ _ eq_refl eq_refl _).
  apply reordered_here. apply perm_swap.
Defined.

(** ** The summary line and the file *)

Lemma digits_value_uint (u : Decimal.uint) : forall acc,
  digits_value (lit (DecimalString.NilEmpty.string_of_uint u)) acc
  = Some (Nat.of_uint_acc u acc).
Proof.
  induction u as [|u IH|u IH|u IH|u IH|u IH|u IH|u IH|u IH|u IH|u IH]; intros acc;
    [done|..];
    cbn [DecimalString.NilEmpty.string_of_uint Nat.of_uint_acc];
    change (lit (String.String ?a ?r)) with (N_of_ascii a :: lit r);
    cbn [digits_value]; rewrite Nat.tail_mul_spec;
    match goal with
    | |- (if ?b then _ else _) = _ => change b with true; cbv iota
    end;
    rewrite IH; do 2 f_equal;
    match goal with
    | |- context [N.to_nat ?x] =>
        let v := eval vm_compute in (N.to_nat x) in change (N.to_nat x) with v
    end; lia.
Qed.

Lemma nzhead_not_D0 (u r : Decimal.uint) : Decimal.nzhead u <> Decimal.D0 r.
Proof. induction u; done. Qed.

(** [str(n)] reads back as [n]; it is not empty, and it starts with the
    digit 0 only when it is that digit alone. *)
Lemma decimal_canonical (n : nat) :
  read_decimal (decimal n) = Some n
  /\ decimal n <> []
  /\ (forall rest, decimal n = 48 :: rest -> rest = []).
Proof.
  unfold decimal. pose proof (DecimalNat.Unsigned.to_of (Nat.to_uint n)) as Hn.
  rewrite DecimalNat.Unsigned.of_to in Hn.
  assert (digits_value (lit (DecimalString.NilEmpty.string_of_uint (Nat.to_uint n))) 0
          = Some n) as Hv.
  { rewrite digits_value_uint. f_equal. apply DecimalNat.Unsigned.of_to. }
  rewrite Hn in *. unfold Decimal.unorm in *.
  pose proof (nzhead_not_D0 (Nat.to_uint n)) as Hz.
  destruct (Decimal.nzhead (Nat.to_uint n)) as [|r|r|r|r|r|r|r|r|r|r];
    (split; [exact Hv|]); (split; [done|]); intros rest;
    try (by intros [= <-]); try (intros [= _]; done).
  by destruct (Hz r).
Qed.

(** C6: the line on the standard output is
    [Generated manifest with <N> MIDI files.], where [<N>] is a decimal
    numeral without a leading zero whose value is the length of the JSON
    array that the output file holds; for an empty base directory the
    file holds [[]] and the line says 0, for scenario A it says 2. *)
Theorem summary_counts_the_array (h : host) (lower : str -> str) (w : world) :
  (stdout (run h lower w) <> [] ->
   exists bytes digits,
     written (run h lower w) = Some bytes
     /\ utf8 (translate_newlines h (dumps (manifest h lower (root w)))) = Some bytes
     /\ loads (dumps (manifest h lower (root w))) = Some (manifest h lower (root w))
     /\ stdout (run h lower w)
        = lit "Generated manifest with " ++ digits ++ lit " MIDI files." ++ [newline]
     /\ read_decimal digits = Some (length (manifest h lower (root w)))
     /\ digits <> []
     /\ (forall rest, digits = 48 :: rest -> rest = []))
  /\ (forall before,
        run h lower (World (Some (Dir [])) (Openable None) before)
        = Result 0 (lit "Generated manifest with 0 MIDI files." ++ [newline])
                 (Some (map byte_of [91; 93])))
  /\ (lower_on_ascii lower ->
      forall before,
        stdout (run h lower (World (Some scenario_A) (Openable None) before))
        = lit "Generated manifest with 2 MIDI files." ++ [newline])
  /\ summary 12 = lit "Generated manifest with 12 MIDI files." ++ [newline].
Proof.
  split; [|split; [|split; [|done]]].
  - intros (bytes & Hb & ->)%run_success.
    exists bytes, (decimal (length (manifest h lower (root w)))).
    destruct (decimal_canonical (length (manifest h lower (root w)))) as (Hv & Hne & Hz).
    split; [done|]. split; [done|]. split; [apply loads_dumps|].
    split; [done|]. by split.
  - intros before. by destruct h.
  - intros Hl before. unfold run. simpl.
    rewrite manifest_on_ascii by (done || by destruct h). by destruct h.
Qed.

Lemma summary_counts_the_array_witness :
  (exists bytes digits,
     written (run Posix lower_ascii_only (World (Some scenario_A) (Openable None) None))
     = Some bytes
     /\ utf8 (translate_newlines Posix
                (dumps (manifest Posix lower_ascii_only
                          (root (World (Some scenario_A) (Openable None) None)))))
        = Some bytes
     /\ loads (dumps (manifest Posix lower_ascii_only
                        (root (World (Some scenario_A) (Openable None) None))))
        = Some (manifest Posix lower_ascii_only
                  (root (World (Some scenario_A) (Openable None) None)))
     /\ stdout (run Posix lower_ascii_only (World (Some scenario_A) (Openable None) None))
        = lit "Generated manifest with " ++ digits ++ lit " MIDI files." ++ [newline]
     /\ read_decimal digits
        = Some (length (manifest Posix lower_ascii_only
                          (root (World (Some scenario_A) (Openable None) None))))
     /\ digits <> []
     /\ (forall rest, digits = 48 :: rest -> rest = []))
  /\ stdout (run Posix lower_ascii_only (World (Some scenario_A) (Openable None) None))
     = lit "Generated manifest with 2 MIDI files." ++ [newline].
Proof.
  destruct (summary_counts_the_array Posix lower_ascii_only
              (World (Some scenario_A) (Openable None) None))
    as (Hrun & _ & Hscenario & _).
  split.
  - apply Hrun. vm_compute. discriminate.
  - apply Hscenario. intros s _. reflexivity.
Defined.

(** C7: the text written is a JSON array of the strings of [paths], laid
    out over several lines with two spaces before each item; a character
    outside ASCII is written as it is, not escaped; and the bytes of the
    file are the UTF-8 encoding of that text. *)
Theorem manifest_file_format (h : host) (lower : str -> str) (w : world) :
  (forall paths, loads (dumps paths) = Some paths)
  /\ dumps [] = lit "[]"
  /\ (forall p ps,
        dumps (p :: ps)
        = lit "[" ++ (newline :: lit "  ") ++ encode_basestring p
          ++ concat (map (fun v => lit "," ++ (newline :: lit "  ") ++ encode_basestring v) ps)
          ++ [newline] ++ lit "]")
  /\ (forall c, 128 <= c -> escape c = [c])
  /\ (forall s, Forall (fun c => 128 <= c) s -> encode_basestring s = quote :: s ++ [quote])
  /\ (stdout (run h lower w) <> [] ->
      exists bytes,
        written (run h lower w) = Some bytes
        /\ utf8 (translate_newlines h (dumps (manifest h lower (root w)))) = Some bytes)
  /\ utf8 [233; 8364; 127925] = Some (map byte_of [195; 169; 226; 130; 172; 240; 159; 142; 181])
  /\ written (run Posix lower_ascii_only
                (World (Some (Dir [ (233 :: lit ".mid", File) ])) (Openable None) None))
     = Some (map byte_of [91; 10; 32; 32; 34; 195; 169; 46; 109; 105; 100; 34; 10; 93]).
Proof.
  assert (forall c, 128 <= c -> escape c = [c]) as Hesc.
  { intros c Hc. unfold escape.
    repeat match goal with
           | |- context [?x =? ?y] => destruct (N.eqb_spec x y); [lia|]
           end.
    destruct (N.ltb_spec c 32); [lia|done]. }
  split; [apply loads_dumps|]. split; [done|]. split; [apply dumps_cons|].
  split; [done|]. split; [|split; [|done]].
  - intros s Hs. unfold encode_basestring. do 2 f_equal.
    induction Hs as [|c s Hc _ IH]; [done|].
    cbn [flat_map]. by rewrite (Hesc c Hc), IH.
  - intros (bytes & Hb & ->)%run_success. by exists bytes.
Qed.

Lemma manifest_file_format_witness :
  exists bytes,
    written (run Nt lower_ascii_only
               (World (Some (Dir [ (233 :: lit ".mid", File) ])) (Openable None) None))
    = Some bytes
    /\ utf8 (translate_newlines Nt
               (dumps (manifest Nt lower_ascii_only
                         (root (World (Some (Dir [ (233 :: lit ".mid", File) ]))
                                      (Openable None) None)))))
       = Some bytes.
Proof.
  apply (manifest_file_format Nt lower_ascii_only
           (World (Some (Dir [ (233 :: lit ".mid", File) ])) (Openable None) None)).
  vm_compute. discriminate.
Defined.

(** ** An output path that cannot be written *)

(** C8: when the output path cannot be opened, or the device is full before
    the manifest is written, the run ends with a non-zero exit code and
    prints no summary line; a run that prints the summary line has written
    the whole manifest. *)
Theorem unwritable_output_is_fatal (h : host) (lower : str -> str) (w : world) :
  (unwritable h lower w = true ->
   exit_code (run h lower w) <> 0 /\ stdout (run h lower w) = [])
  /\ (stdout (run h lower w) <> [] ->
      unwritable h lower w = false
      /\ exit_code (run h lower w) = 0
      /\ written (run h lower w) = Some (fst (to_write h lower (root w)))
      /\ snd (to_write h lower (root w)) = true).
Proof.
  split.
  - intros [-> ->]%run_unwritable. done.
  - intros Hout. destruct (run_cases h lower w) as [[_ E]|(bytes & Hb & Hu & Hr)];
      [done|]. rewrite Hr, Hb. done.
Qed.

Lemma unwritable_output_is_fatal_witness :
  (exit_code (run Posix lower_ascii_only (World (Some scenario_A) Unopenable None)) <> 0
   /\ stdout (run Posix lower_ascii_only (World (Some scenario_A) Unopenable None)) = [])
  /\ (exit_code (run Posix lower_ascii_only
                   (World (Some scenario_A) (Openable (Some 5%nat)) None)) <> 0
      /\ stdout (run Posix lower_ascii_only
                   (World (Some scenario_A) (Openable (Some 5%nat)) None)) = []).
Proof.
  split.
  - apply (proj1 (unwritable_output_is_fatal Posix lower_ascii_only
                    (World (Some scenario_A) Unopenable None))).
    reflexivity.
  - apply (proj1 (unwritable_output_is_fatal Posix lower_ascii_only
                    (World (Some scenario_A) (Openable (Some 5%nat)) None))).
    reflexivity.
Defined.

(** * Further properties of the script *)

(** ** How many entries, and no entry twice *)

Lemma NoDup_map_inj_in {A B} (f : A -> B) (l : list A) :
  (forall x y, In x l -> In y l -> f x = f y -> x = y) ->
  NoDup l -> NoDup (map f l).
Proof.
  induction l as [|a l IH]; intros Hinj Hnd; simpl; [constructor|].
  apply NoDup_cons in Hnd as [Ha Hnd]. apply NoDup_cons. split.
  - intros Hin. apply list_elem_of_In, in_map_iff in Hin as (x & E & Hx).
    apply Ha, list_elem_of_In.
    rewrite (Hinj a x); [done|by left|by right|done].
  - apply IH; [|done]. intros x y Hx Hy. apply Hinj; by right.
Qed.

Lemma NoDup_filter_bool {A} (p : A -> bool) (l : list A) :
  NoDup l -> NoDup (List.filter p l).
Proof.
  induction l as [|a l IH]; intros Hnd; simpl; [done|].
  apply NoDup_cons in Hnd as [Ha Hnd]. destruct (p a); [|by apply IH].
  apply NoDup_cons. split; [|by apply IH].
  intros Hin. apply Ha. apply list_elem_of_In.
  apply list_elem_of_In, filter_In in Hin as [Hin _]. done.
Qed.

Lemma listed_as_entry (e : str * node) (df : list str * str) :
  In df (if is_dir (snd e)
         then map (fun df => (fst e :: fst df, snd df)) (files_under (snd e))
         else [([], fst e)]) ->
  listed_as df = fst e.
Proof.
  destruct (is_dir (snd e)).
  - by intros ([ds f] & <- & _)%in_map_iff.
  - by intros [<-|[]].
Qed.

(** The walk comes to no file twice. *)
Lemma NoDup_files_under (n : node) :
  unique_names n = true -> NoDup (files_under n).
Proof.
  induction n as [| |entries IH] using node_ind; try (intros _; constructor).
  simpl. intros [Hnd Hall]%andb_prop. apply bool_decide_eq_true_1 in Hnd.
  induction entries as [|[name c] es IHes]; simpl; [constructor|].
  apply Forall_cons in IH as [IHc IH]. simpl in Hall, IHc.
  apply andb_prop in Hall as [Hc Hall]. simpl in Hnd.
  apply NoDup_cons in Hnd as [Hname Hnd].
  apply NoDup_app. split; [|split; [|by apply IHes]].
  - destruct (is_dir c); [|apply NoDup_singleton].
    apply NoDup_map_inj_in; [|by apply IHc].
    intros [ds f] [ds' f'] _ _ [= -> ->]. done.
  - intros df Hdf Hdf'. apply list_elem_of_In in Hdf, Hdf'.
    apply (listed_as_entry (name, c)) in Hdf.
    apply in_flat_map in Hdf' as (e' & He' & Hdf').
    apply listed_as_entry in Hdf'. simpl in Hdf.
    apply Hname, list_elem_of_In. rewrite <- Hdf, Hdf'. by apply in_map.
Qed.

Lemma Sorted_le_NoDup_lt (l : list str) :
  Sorted str_le l -> NoDup l -> Sorted str_lt l.
Proof.
  induction 1 as [|x l Hs IH Hhd]; intros Hnd; [constructor|].
  apply NoDup_cons in Hnd as [Hx Hnd]. constructor; [by apply IH|].
  destruct Hhd as [|y l' Hxy]; constructor.
  unfold str_lt. unfold str_le in Hxy.
  destruct (str_ltb x y) eqn:E; [done|].
  exfalso. apply Hx. rewrite (str_ltb_total x y E Hxy). by left.
Qed.

(** X1: the manifest has one entry for each file with a matching name that
    the walk comes to, no more and no fewer; so the count of line 15 is the
    number of those files. *)
Theorem manifest_length (h : host) (lower : str -> str) (t : node) :
  unique_names t = true ->
  length (manifest h lower (Some t))
  = length (List.filter (fun df => is_midi lower (snd df)) (files_under t)).
Proof.
  intros Hu. unfold manifest, collect, walk. rewrite sort_length.
  rewrite (Permutation_length (walk_with_perm h lower sort sort_perm t Hu base)).
  unfold entries_of. apply length_map.
Qed.

Lemma manifest_length_witness :
  length (manifest Posix lower_ascii_only (Some scenario_A))
  = length (List.filter (fun df => is_midi lower_ascii_only (snd df))
                        (files_under scenario_A)).
Proof. apply (manifest_length Posix lower_ascii_only scenario_A). reflexivity. Defined.

(** X2: the manifest of a well-formed tree is strictly ascending: each
    entry is less than the next, so no path is listed twice. *)
Theorem manifest_strictly_ascending (h : host) (lower : str -> str) (t : node) :
  well_formed h t = true ->
  Sorted str_lt (manifest h lower (Some t)) /\ NoDup (manifest h lower (Some t)).
Proof.
  intros Hwf.
  assert (NoDup (manifest h lower (Some t))) as Hnd.
  { rewrite manifest_well_formed by done. rewrite sort_perm.
    apply andb_prop in Hwf as [Hu Hw].
    apply NoDup_map_inj_in.
    - intros df df' [Hdf _]%filter_In [Hdf' _]%filter_In.
      apply (rel_path_inj h); by apply (files_under_wf h t).
    - by apply NoDup_filter_bool, NoDup_files_under. }
  split; [|done]. apply Sorted_le_NoDup_lt; [apply sort_sorted|done].
Qed.

Lemma manifest_strictly_ascending_witness :
  Sorted str_lt (manifest Nt lower_ascii_only (Some scenario_D))
  /\ NoDup (manifest Nt lower_ascii_only (Some scenario_D)).
Proof.
  apply (manifest_strictly_ascending Nt lower_ascii_only scenario_D). reflexivity.
Defined.

(** ** The same manifest on every host *)

Lemma wf_names_Posix (h : host) (n : node) :
  wf_names h n = true -> wf_names Posix n = true.
Proof.
  induction n as [| |entries IH] using node_ind; try done.
  simpl. rewrite !forallb_forall. intros Hall e He.
  rewrite List.Forall_forall in IH.
  specialize (Hall e He). apply andb_prop in Hall as [Hn Hc].
  by rewrite (wf_name_Posix h _ Hn), (IH e He Hc).
Qed.

(** X3: lines 9-10 make the manifest independent of the host: a tree whose
    names are well formed where the separator is the backslash gives there
    the manifest it gives where the separator is the forward slash. *)
Theorem manifest_same_on_every_host (h : host) (lower : str -> str) (t : node) :
  well_formed h t = true ->
  manifest h lower (Some t) = manifest Posix lower (Some t).
Proof.
  intros Hwf. rewrite (manifest_well_formed h lower t Hwf).
  rewrite (manifest_well_formed Posix lower t); [done|].
  apply andb_prop in Hwf as [Hu Hw]. unfold well_formed.
  by rewrite Hu, (wf_names_Posix h t Hw).
Qed.

Lemma manifest_same_on_every_host_witness :
  manifest Nt lower_ascii_only (Some scenario_A)
  = manifest Posix lower_ascii_only (Some scenario_A).
Proof.
  apply (manifest_same_on_every_host Nt lower_ascii_only scenario_A). reflexivity.
Defined.

Lemma split_path_names (h : host) (names : list str) : forall (p : str),
  Forall (fun n => wf_name h n = true) names ->
  split_path h (p ++ flat_map (fun n => os_sep h :: n) names)
  = split_path h p ++ names.
Proof.
  induction names as [|n names IH]; intros p Hall.
  - simpl. by rewrite !app_nil_r.
  - apply Forall_cons in Hall as [Hn Hall].
    cbn [flat_map]. rewrite app_assoc, (IH _ Hall).
    rewrite split_path_app_sep by apply os_sep_is_sep.
    rewrite (split_path_name h n); [by rewrite <- app_assoc|].
    unfold wf_name in Hn. by apply andb_prop in Hn as [_ Hn].
Qed.

(** X4: what lines 9-10 append for a file splits at its forward slashes
    into the names of the directories from the base directory down and the
    name of the file, none lost and none empty. *)
Theorem entry_splits_into_names (h : host) (dirs : list str) (f : str) :
  Forall (fun n => wf_name h n = true) dirs -> wf_name h f = true ->
  split_path Posix (entry h (fold_left (join h) dirs base) f) = dirs ++ [f].
Proof.
  intros Hd Hf.
  assert (Forall (fun n => wf_name Posix n = true) (dirs ++ [f])) as Hall.
  { apply Forall_app. split.
    - eapply Forall_impl; [exact Hd|]. apply wf_name_Posix.
    - apply Forall_singleton. by apply (wf_name_Posix h). }
  rewrite entry_below_base by done.
  destruct (dirs ++ [f]) as [|x xs] eqn:E; [by destruct dirs|].
  apply Forall_cons in Hall as [Hx Hxs].
  rewrite join_with_flat_map. change slash with (os_sep Posix).
  rewrite (split_path_names Posix xs x Hxs).
  rewrite (split_path_name Posix x); [done|].
  unfold wf_name in Hx. by apply andb_prop in Hx as [_ Hx].
Qed.

Lemma entry_splits_into_names_witness :
  split_path Posix (entry Nt (fold_left (join Nt) [lit "x"; lit "y"] base) (lit "song.mid"))
  = [lit "x"; lit "y"] ++ [lit "song.mid"].
Proof.
  apply (entry_splits_into_names Nt [lit "x"; lit "y"] (lit "song.mid")).
  - repeat constructor.
  - reflexivity.
Defined.

(** ** The order of the walk itself *)

Lemma dirnames_app (es1 es2 : list (str * node)) :
  dirnames (es1 ++ es2) = dirnames es1 ++ dirnames es2.
Proof.
  induction es1 as [|[name c] es1 IH]; simpl; [done|].
  destruct (is_dir c); simpl; by rewrite IH.
Qed.

Lemma filenames_app (es1 es2 : list (str * node)) :
  filenames (es1 ++ es2) = filenames es1 ++ filenames es2.
Proof.
  induction es1 as [|[name c] es1 IH]; simpl; [done|].
  destruct (is_dir c); simpl; by rewrite IH.
Qed.

Lemma dirnames_perm (es es' : list (str * node)) :
  es ≡ₚ es' -> dirnames es ≡ₚ dirnames es'.
Proof.
  induction 1 as [|[n c] l1 l2 _ IH|[n c] [n' c'] l|l1 l2 l3 _ IH1 _ IH2]; simpl.
  - done.
  - destruct (is_dir c); by rewrite IH.
  - destruct (is_dir c), (is_dir c'); try done. apply perm_swap.
  - by rewrite IH1.
Qed.

Lemma filenames_perm (es es' : list (str * node)) :
  es ≡ₚ es' -> filenames es ≡ₚ filenames es'.
Proof.
  induction 1 as [|[n c] l1 l2 _ IH|[n c] [n' c'] l|l1 l2 l3 _ IH1 _ IH2]; simpl.
  - done.
  - destruct (is_dir c); by rewrite IH.
  - destruct (is_dir c), (is_dir c'); try done. apply perm_swap.
  - by rewrite IH1.
Qed.

Lemma lookup_child_app (es1 es2 : list (str * node)) (d : str) :
  lookup_child (es1 ++ es2) d
  = match lookup_child es1 d with
    | Some c => Some c
    | None => lookup_child es2 d
    end.
Proof.
  induction es1 as [|[name c] es1 IH]; simpl; [done|].
  by case_bool_decide.
Qed.

Lemma lookup_child_perm (es es' : list (str * node)) (d : str) :
  NoDup (map fst es) -> es ≡ₚ es' -> lookup_child es' d = lookup_child es d.
Proof.
  intros Hnd Hp.
  assert (NoDup (map fst es')) as Hnd' by (by rewrite <- Hp).
  destruct (lookup_child es d) as [c|] eqn:L.
  - apply lookup_child_In in L. apply lookup_child_unique; [done|].
    apply list_elem_of_In. rewrite <- Hp. by apply list_elem_of_In.
  - destruct (lookup_child es' d) as [c'|] eqn:L'; [|done].
    apply lookup_child_In in L'.
    rewrite (lookup_child_unique es d c') in L; [done..|].
    apply list_elem_of_In. rewrite Hp. by apply list_elem_of_In.
Qed.

Section Order.

Variable h : host.
Variable lower : str -> str.

Lemma walk_reordered (t t' : node) :
  reordered t t' -> unique_names t = true ->
  forall top paths, walk h lower top t' paths = walk h lower top t paths.
Proof.
  unfold walk.
  induction 1 as [n|es es' Hp|name c c' es1 es2 Hr IH|a b c Hab IH1 Hbc IH2];
    intros Hu top paths.
  - done.
  - rewrite !walk_with_Dir. simpl in Hu.
    apply andb_prop in Hu as [Hnd _]. apply bool_decide_eq_true_1 in Hnd.
    rewrite (sort_of_perm _ _ (dirnames_perm _ _ Hp)).
    rewrite (sort_of_perm _ _ (filenames_perm _ _ Hp)).
    apply fold_left_ext. intros acc d. by rewrite (lookup_child_perm es es').
  - rewrite !walk_with_Dir, !dirnames_app, !filenames_app. simpl.
    rewrite (reordered_is_dir _ _ Hr).
    apply fold_left_ext. intros acc d. rewrite !lookup_child_app.
    destruct (lookup_child es1 d); [done|]. simpl.
    case_bool_decide; [|done]. simpl. apply IH.
    simpl in Hu. rewrite forallb_app in Hu. simpl in Hu.
    by apply andb_prop in Hu as [_ [_ [Hc _]%andb_prop]%andb_prop].
  - rewrite IH2 by (by apply (reordered_unique_names a)). by apply IH1.
Qed.

Lemma walk_unlock (t : node) : forall top paths,
  walk h lower top (unlock t) paths = walk h lower top t paths.
Proof.
  unfold walk. induction t as [| |entries IH] using node_ind; intros top paths;
    try done.
  cbn [unlock]. rewrite !walk_with_Dir.
  assert (dirnames (map (fun e => (fst e, unlock (snd e))) entries) = dirnames entries
          /\ filenames (map (fun e => (fst e, unlock (snd e))) entries) = filenames entries)
    as [-> ->].
  { clear IH. induction entries as [|[name c] es [IH1 IH2]]; [done|].
    simpl. rewrite IH1, IH2. by destruct c. }
  apply fold_left_ext. intros acc d. clear paths.
  induction entries as [|[name c] es IHes]; simpl; [done|].
  apply Forall_cons in IH as [IHc IH].
  case_bool_decide; [apply IHc|by apply IHes].
Qed.

End Order.

(** X5: with [dirs] and [files] sorted at each level, the order in which
    the walk itself collects the entries, before the final sort, does not
    depend on the order in which directories enumerate their entries. *)
Theorem collect_order_independent (h : host) (lower : str -> str) (t t' : node) :
  unique_names t = true -> reordered t t' ->
  collect h lower (Some t') = collect h lower (Some t)
  /\ collect h lower (Some (mirror t)) = collect h lower (Some t).
Proof.
  intros Hu Hr. split; apply walk_reordered; done || apply reordered_mirror.
Qed.

Lemma collect_order_independent_witness :
  collect Posix lower_ascii_only (Some (mirror scenario_A))
  = collect Posix lower_ascii_only (Some scenario_A).
Proof.
  refine (proj2 (collect_order_independent Posix lower_ascii_only
                   scenario_A scenario_A _ _)).
  - reflexivity.
  - apply reordered_same.
Defined.

(** X6: [os.walk] is called without [onerror]: a directory below the base
    directory that cannot be listed, or is a link, counts as an empty
    directory. The run is the one of the tree with every such directory
    empty: same exit code, same summary line, same file. *)
Theorem closed_directory_counts_as_empty (h : host) (lower : str -> str)
    (t : node) (out : output_path) (before : option (list byte)) :
  run h lower (World (Some (unlock t)) out before)
  = run h lower (World (Some t) out before).
Proof.
  unfold run, manifest, collect. simpl. by rewrite walk_unlock.
Qed.

(** ** The filter on names of ASCII characters *)

Lemma startswith_iff (s p : str) :
  startswith s p = true <-> exists rest, s = p ++ rest.
Proof.
  revert s; induction p as [|y p IH]; intros s.
  - split; [by exists s|by destruct s].
  - destruct s as [|x s]; simpl.
    + split; [done|by intros [rest ?]].
    + rewrite andb_true_iff, N.eqb_eq, IH. split.
      * intros [-> [rest ->]]. by exists rest.
      * intros [rest [= -> ->]]. split; [done|by exists rest].
Qed.

Lemma endswith_iff (s suffix : str) :
  endswith s suffix = true <-> exists stem, s = stem ++ suffix.
Proof.
  unfold endswith. rewrite startswith_iff. split.
  - intros [rest E]. exists (rev rest).
    apply (f_equal (@rev N)) in E.
    by rewrite rev_involutive, rev_app_distr, rev_involutive in E.
  - intros [stem ->]. exists (rev stem). by rewrite rev_app_distr.
Qed.

(** X7: for a name of ASCII characters, line 8 accepts exactly the names
    that end with four characters equal to [.mid] or five equal to [.midi]
    when upper and lower case are not told apart; what stands before them,
    if anything, does not matter. *)
Theorem filter_accepts_suffix_in_any_case (lower : str -> str) (f : str) :
  lower_on_ascii lower -> ascii_only f = true ->
  (is_midi lower f = true
   <-> exists stem ext,
         f = stem ++ ext
         /\ (map ascii_lower ext = lit ".mid" \/ map ascii_lower ext = lit ".midi")).
Proof.
  intros Hl Ha. rewrite is_midi_iff, (Hl f Ha), !endswith_iff. split.
  - intros [[pre E]|[pre E]]; apply map_eq_app in E as (stem & ext & -> & _ & Hext);
      exists stem, ext; auto.
  - intros (stem & ext & -> & [E|E]); [left|right];
      exists (map ascii_lower stem); by rewrite map_app, E.
Qed.

Lemma filter_accepts_suffix_in_any_case_witness :
  is_midi lower_ascii_only (lit "Song.MiDi") = true
  <-> exists stem ext,
        lit "Song.MiDi" = stem ++ ext
        /\ (map ascii_lower ext = lit ".mid" \/ map ascii_lower ext = lit ".midi").
Proof.
  apply (filter_accepts_suffix_in_any_case lower_ascii_only (lit "Song.MiDi")).
  - intros s _. reflexivity.
  - reflexivity.
Defined.

(** ** What the text of the file is made of *)

Lemma hex_digit_bounds (d : N) : d < 16 -> 48 <= hex_digit d < 128.
Proof. intros Hd. unfold hex_digit. destruct (N.ltb_spec d 10); lia. Qed.

Lemma Forall_checked (lo hi : N) (s : str) :
  forallb (fun x => (lo <=? x) && (x <? hi)) s = true ->
  Forall (fun x => lo <= x < hi) s.
Proof.
  rewrite forallb_forall, List.Forall_forall. intros H x Hx.
  specialize (H x Hx). apply andb_prop in H as [H1%N.leb_le H2%N.ltb_lt]. done.
Qed.

(** An escape sequence is made of printable ASCII characters; a character
    that is not escaped is not a control character. *)
Lemma escape_cases (c : N) :
  Forall (fun x => 32 <= x < 128) (escape c) \/ (escape c = [c] /\ 32 <= c).
Proof.
  unfold escape.
  repeat match goal with
         | |- context [?x =? ?y] =>
             destruct (N.eqb_spec x y); [left; by apply Forall_checked|]
         end.
  destruct (N.ltb_spec c 32) as [Hlt|Hge]; [left|by right].
  assert (c / 16 < 16) as Hq by (apply N.Div0.div_lt_upper_bound; lia).
  assert (c mod 16 < 16) as Hr by (apply N.mod_lt; lia).
  pose proof (hex_digit_bounds _ Hq). pose proof (hex_digit_bounds _ Hr).
  apply (Forall_app _ [92; 117; 48; 48]). split; [by apply Forall_checked|].
  apply List.Forall_cons; [lia|]. apply List.Forall_cons; [lia|]. apply List.Forall_nil.
Qed.

Lemma escape_printable (c : N) : Forall (fun x => 32 <= x) (escape c).
Proof.
  destruct (escape_cases c) as [H|[-> H]].
  - eapply Forall_impl; [exact H|]. intros x Hx. simpl in Hx. lia.
  - by apply List.Forall_cons.
Qed.

Lemma encode_basestring_printable (s : str) :
  Forall (fun x => 32 <= x) (encode_basestring s).
Proof.
  unfold encode_basestring. constructor; [unfold quote; lia|].
  apply Forall_app. split; [|repeat constructor; unfold quote; lia].
  induction s as [|c s IH]; simpl; [constructor|].
  apply Forall_app. split; [apply escape_printable|done].
Qed.

Lemma count_occ_printable (s : str) :
  Forall (fun x => 32 <= x) s -> count_occ N.eq_dec s newline = 0%nat.
Proof.
  induction 1 as [|c s Hc _ IH]; [done|].
  simpl. destruct (N.eq_dec c newline) as [->|_]; [|done].
  unfold newline in Hc. lia.
Qed.

(** X8: inside a JSON string of the file no control character is written
    as it is (a line feed in a file name becomes a backslash and [n]), so
    the line feeds of the text are those of the layout: one after the
    opening bracket and one after each entry. *)
Theorem text_has_one_line_per_entry (paths : list str) :
  Forall (fun s => Forall (fun c => 32 <= c) (encode_basestring s)) paths
  /\ count_occ N.eq_dec (dumps paths) newline
     = match paths with [] => 0%nat | _ :: _ => S (length paths) end.
Proof.
  split.
  - apply List.Forall_forall. intros s _. apply encode_basestring_printable.
  - destruct paths as [|p ps]; [done|]. rewrite dumps_cons.
    rewrite !count_occ_app.
    rewrite (count_occ_printable _ (encode_basestring_printable p)).
    assert (count_occ N.eq_dec
              (concat (map (fun v => lit "," ++ newline_indent ++ encode_basestring v) ps))
              newline = length ps) as ->.
    { induction ps as [|v ps IH]; [done|].
      cbn [map concat]. rewrite !count_occ_app, IH.
      by rewrite (count_occ_printable _ (encode_basestring_printable v)). }
    simpl. lia.
Qed.

(** ** When a run succeeds *)

Lemma utf8_char_encodable (c : N) :
  match utf8_char c with Some _ => true | None => false end = encodable c.
Proof.
  unfold utf8_char, encodable.
  repeat match goal with
         | |- context [?x <? ?y] => destruct (N.ltb_spec x y)
         | |- context [?x <=? ?y] => destruct (N.leb_spec x y)
         end; simpl; done || lia.
Qed.

Lemma utf8_encodable (s : str) :
  match utf8 s with Some _ => true | None => false end = forallb encodable s.
Proof.
  induction s as [|c s IH]; [done|]. simpl.
  rewrite <- utf8_char_encodable, <- IH.
  by destruct (utf8_char c), (utf8 s).
Qed.

Lemma translate_newlines_encodable (h : host) (s : str) :
  forallb encodable (translate_newlines h s) = forallb encodable s.
Proof.
  destruct h; [done|]. simpl.
  induction s as [|c s IH]; [done|]. simpl.
  destruct (N.eqb_spec c newline) as [->|_]; simpl; by rewrite IH.
Qed.

Lemma write_chunks_snd (h : host) (chunks : list str) : forall sofar,
  snd (write_chunks h chunks sofar) = forallb (forallb encodable) chunks.
Proof.
  induction chunks as [|chunk chunks IH]; intros sofar; [done|]. simpl.
  rewrite <- (translate_newlines_encodable h chunk), <- utf8_encodable.
  destruct (utf8 (translate_newlines h chunk)); [apply IH|done].
Qed.

Lemma printable_ascii_encodable (s : str) :
  Forall (fun x => x < 128) s -> forallb encodable s = true.
Proof.
  induction 1 as [|c s Hc _ IH]; [done|]. simpl. rewrite IH.
  unfold encodable. destruct (N.ltb_spec c 55296); [done|lia].
Qed.

Lemma escape_encodable (c : N) : forallb encodable (escape c) = encodable c.
Proof.
  destruct (escape_cases c) as [H|[E H]].
  - rewrite printable_ascii_encodable.
    + unfold escape in H. unfold encodable.
      destruct (N.ltb_spec c 55296); [done|].
      repeat match goal with
             | H : context [?x =? ?y] |- _ => destruct (N.eqb_spec x y); [lia|]
             end.
      destruct (N.ltb_spec c 32); [lia|].
      apply Forall_cons in H as [H _]. lia.
    + eapply Forall_impl; [exact H|]. intros x Hx. simpl in Hx. lia.
  - rewrite E. simpl. by rewrite andb_true_r.
Qed.

Lemma encode_basestring_encodable (s : str) :
  forallb encodable (encode_basestring s) = forallb encodable s.
Proof.
  unfold encode_basestring. cbn [forallb]. rewrite forallb_app. simpl.
  rewrite andb_true_r.
  induction s as [|c s IH]; [done|].
  cbn [flat_map forallb]. by rewrite forallb_app, escape_encodable, IH.
Qed.

Lemma iterencode_encodable (paths : list str) :
  forallb (forallb encodable) (iterencode paths)
  = forallb (forallb encodable) paths.
Proof.
  destruct paths as [|p ps]; [done|]. unfold iterencode.
  cbn [forallb]. rewrite !forallb_app, encode_basestring_encodable.
  change (forallb encodable (lit "[")) with true.
  change (forallb encodable newline_indent) with true.
  change (forallb (forallb encodable) [[newline]; lit "]"]) with true.
  rewrite andb_true_r. cbn [andb]. f_equal.
  induction ps as [|v ps IH]; [done|]. cbn [map forallb].
  rewrite forallb_app, encode_basestring_encodable, IH.
  by change (forallb encodable separator) with true.
Qed.

(** X9: a run ends with exit code 0 exactly when the output path can be
    opened and takes the whole manifest, and every entry consists of
    characters the UTF-8 codec takes; a surrogate in an entry (an
    undecodable byte of a file name) makes the run fail. *)
Theorem run_succeeds_iff (h : host) (lower : str -> str) (w : world) :
  exit_code (run h lower w) = 0
  <-> unwritable h lower w = false
      /\ forallb (forallb encodable) (manifest h lower (root w)) = true.
Proof.
  rewrite <- iterencode_encodable.
  rewrite <- (write_chunks_snd h _ []).
  unfold run, unwritable, to_write.
  destruct (output w) as [|[r|]];
    destruct (write_chunks h (iterencode (manifest h lower (root w))) [])
      as [bytes enc]; simpl.
  all: try destruct enc; simpl; try case_bool_decide; simpl;
    (split; [intros E|intros [E1 E2]]); done || discriminate.
Qed.

(** ** Reading the file back *)

Lemma to_N_byte_of (n : N) : n < 256 -> Byte.to_N (byte_of n) = n.
Proof.
  intros Hn. unfold byte_of. rewrite N.mod_small by done.
  destruct (Byte.of_N n) as [b|] eqn:E; [by apply Byte.to_of_N|].
  apply Byte.of_N_None_iff in E. lia.
Qed.

Lemma utf8_decode_1 (b0 : byte) (rest : list byte) :
  Byte.to_N b0 < 128 ->
  utf8_decode (b0 :: rest) = Byte.to_N b0 :: utf8_decode rest.
Proof. intros H. simpl. destruct (N.ltb_spec (Byte.to_N b0) 128); [done|lia]. Qed.

Lemma utf8_decode_2 (b0 b1 : byte) (rest : list byte) :
  128 <= Byte.to_N b0 < 224 ->
  utf8_decode (b0 :: b1 :: rest)
  = ((Byte.to_N b0 - 192) * 64 + (Byte.to_N b1 - 128)) :: utf8_decode rest.
Proof.
  intros H. simpl.
  destruct (N.ltb_spec (Byte.to_N b0) 128); [lia|].
  destruct (N.ltb_spec (Byte.to_N b0) 224); [done|lia].
Qed.

Lemma utf8_decode_3 (b0 b1 b2 : byte) (rest : list byte) :
  224 <= Byte.to_N b0 < 240 ->
  utf8_decode (b0 :: b1 :: b2 :: rest)
  = ((Byte.to_N b0 - 224) * 4096 + (Byte.to_N b1 - 128) * 64 + (Byte.to_N b2 - 128))
      :: utf8_decode rest.
Proof.
  intros H. simpl.
  destruct (N.ltb_spec (Byte.to_N b0) 128); [lia|].
  destruct (N.ltb_spec (Byte.to_N b0) 224); [lia|].
  destruct (N.ltb_spec (Byte.to_N b0) 240); [done|lia].
Qed.

Lemma utf8_decode_4 (b0 b1 b2 b3 : byte) (rest : list byte) :
  240 <= Byte.to_N b0 ->
  utf8_decode (b0 :: b1 :: b2 :: b3 :: rest)
  = ((Byte.to_N b0 - 240) * 262144 + (Byte.to_N b1 - 128) * 4096
     + (Byte.to_N b2 - 128) * 64 + (Byte.to_N b3 - 128))
      :: utf8_decode rest.
Proof.
  intros H. simpl.
  destruct (N.ltb_spec (Byte.to_N b0) 128); [lia|].
  destruct (N.ltb_spec (Byte.to_N b0) 224); [lia|].
  destruct (N.ltb_spec (Byte.to_N b0) 240); [lia|done].
Qed.

Ltac hide_divmod :=
  repeat match goal with
         | H : context [N.modulo ?a ?b] |- _ =>
             let r := fresh "r" in set (r := N.modulo a b) in *; clearbody r
         | |- context [N.modulo ?a ?b] =>
             let r := fresh "r" in set (r := N.modulo a b) in *; clearbody r
         | H : context [N.div ?a ?b] |- _ =>
             let q := fresh "q" in set (q := N.div a b) in *; clearbody q
         | |- context [N.div ?a ?b] =>
             let q := fresh "q" in set (q := N.div a b) in *; clearbody q
         end.

Lemma utf8_decode_char (c : N) (b rest : list byte) :
  utf8_char c = Some b -> utf8_decode (b ++ rest) = c :: utf8_decode rest.
Proof.
  unfold utf8_char.
  pose proof (N.mod_lt c 64 ltac:(lia)) as M0.
  pose proof (N.mod_lt (c / 64) 64 ltac:(lia)) as M1.
  pose proof (N.mod_lt (c / 4096) 64 ltac:(lia)) as M2.
  pose proof (N.div_mod c 64 ltac:(lia)) as D0.
  pose proof (N.div_mod (c / 64) 64 ltac:(lia)) as D1.
  pose proof (N.div_mod (c / 4096) 64 ltac:(lia)) as D2.
  rewrite N.Div0.div_div in D1. change (64 * 64) with 4096 in D1.
  rewrite N.Div0.div_div in D2. change (4096 * 64) with 262144 in D2.
  destruct (N.ltb_spec c 128) as [H1|H1].
  { intros [= <-]. cbn [app].
    rewrite utf8_decode_1; rewrite to_N_byte_of by lia; [done|lia]. }
  destruct (N.ltb_spec c 2048) as [H2|H2].
  { intros [= <-]. cbn [app].
    assert (c / 64 < 32) by (apply N.Div0.div_lt_upper_bound; lia).
    rewrite utf8_decode_2; rewrite !to_N_byte_of by lia; [f_equal|];
      hide_divmod; lia. }
  destruct ((55296 <=? c) && (c <=? 57343)); [done|].
  destruct (N.ltb_spec c 65536) as [H3|H3].
  { intros [= <-]. cbn [app].
    assert (c / 4096 < 16) by (apply N.Div0.div_lt_upper_bound; lia).
    rewrite utf8_decode_3; rewrite !to_N_byte_of by lia; [f_equal|];
      hide_divmod; lia. }
  destruct (N.ltb_spec c 1114112) as [H4|H4]; [|done].
  intros [= <-]. cbn [app].
  assert (c / 262144 < 5) by (apply N.Div0.div_lt_upper_bound; lia).
  rewrite utf8_decode_4; rewrite !to_N_byte_of by lia; [f_equal|];
    hide_divmod; lia.
Qed.

(** Decoding undoes encoding. *)
Lemma utf8_decode_utf8 (s : str) (bytes : list byte) :
  utf8 s = Some bytes -> utf8_decode bytes = s.
Proof.
  revert bytes; induction s as [|c s IH]; intros bytes; simpl.
  - by intros [= <-].
  - destruct (utf8_char c) as [b|] eqn:Ec; [|done].
    destruct (utf8 s) as [bs|]; [|done]. intros [= <-].
    by rewrite (utf8_decode_char c b bs Ec), (IH bs).
Qed.

(** X10: the UTF-8 encoding with which the file is written loses nothing:
    decoding the bytes of a text that could be encoded gives the text
    back, code point by code point, so two texts never share their bytes. *)
Theorem utf8_round_trip (s : str) (bytes : list byte) :
  utf8 s = Some bytes ->
  utf8_decode bytes = s /\ (forall s', utf8 s' = Some bytes -> s' = s).
Proof.
  intros Hs. split; [by apply utf8_decode_utf8|].
  intros s' Hs'. by rewrite <- (utf8_decode_utf8 s' bytes Hs'), (utf8_decode_utf8 s bytes Hs).
Qed.

Lemma utf8_round_trip_witness :
  utf8_decode (map byte_of [195; 169; 226; 130; 172; 240; 159; 142; 181; 97])
  = [233; 8364; 127925; 97].
Proof.
  apply (proj1 (utf8_round_trip [233; 8364; 127925; 97] _ eq_refl)).
Defined.

Lemma loads_items_with (between closing : str) :
  (forall rest items,
      loads_from (between ++ quote :: rest) Item items
      = loads_from rest (InString []) items) ->
  (forall items, loads_from closing Item items = Some items) ->
  forall (ps : list str) (items : list str),
    loads_from (concat (map (fun v => between ++ encode_basestring v) ps) ++ closing)
               Item items
    = Some (items ++ ps).
Proof.
  intros Hb Hc. induction ps as [|p ps IH]; intros items.
  - simpl. by rewrite Hc, app_nil_r.
  - cbn [map concat]. unfold encode_basestring at 1.
    rewrite <- !app_assoc. rewrite <- !app_comm_cons, <- app_assoc.
    rewrite Hb. cbn [app]. rewrite loads_string, IH. by rewrite <- app_assoc.
Qed.

Lemma crlf_printable (s : str) :
  Forall (fun x => 32 <= x) s ->
  flat_map (fun c => if c =? newline then [13; newline] else [c]) s = s.
Proof.
  induction 1 as [|c s Hc _ IH]; [done|]. simpl. rewrite IH.
  destruct (N.eqb_spec c newline) as [->|_]; [|done]. unfold newline in Hc. lia.
Qed.

(** The text with the line ends of the host still reads as the array. *)
Lemma loads_translated (h : host) (paths : list str) :
  loads (translate_newlines h (dumps paths)) = Some paths.
Proof.
  destruct h; [apply loads_dumps|].
  destruct paths as [|p ps]; [done|].
  rewrite dumps_cons. unfold translate_newlines.
  rewrite !flat_map_app.
  rewrite (crlf_printable _ (encode_basestring_printable p)).
  assert (flat_map (fun c => if c =? newline then [13; newline] else [c])
            (concat (map (fun v => lit "," ++ newline_indent ++ encode_basestring v) ps))
          = concat (map (fun v => [44; 13; 10; 32; 32] ++ encode_basestring v) ps)) as ->.
  { induction ps as [|v ps IH]; [done|].
    cbn [map concat]. rewrite !flat_map_app, IH.
    rewrite (crlf_printable _ (encode_basestring_printable v)).
    by rewrite <- app_assoc. }
  change (flat_map _ (lit "[")) with [91].
  change (flat_map _ newline_indent) with [13; 10; 32; 32].
  change (flat_map _ [newline] ++ flat_map _ (lit "]")) with [13; 10; 93].
  unfold loads, encode_basestring at 1. cbn [app].
  change (loads_from (91 :: 13 :: 10 :: 32 :: 32 :: quote :: ?r) Start [])
    with (loads_from r (InString []) []).
  rewrite <- app_assoc. cbn [app]. rewrite loads_string.
  by apply (loads_items_with [44; 13; 10; 32; 32] [13; 10; 93]).
Qed.

(** X11: after a run that printed its summary line, a reader that decodes
    the output file as UTF-8 and reads the text as JSON gets the sorted
    list of entries, on either host: nothing of a file name is lost or
    altered by the escaping, the encoding or the line ends. *)
Theorem file_reads_back_as_manifest (h : host) (lower : str -> str) (w : world) :
  stdout (run h lower w) <> [] ->
  exists bytes,
    written (run h lower w) = Some bytes
    /\ loads (utf8_decode bytes) = Some (manifest h lower (root w)).
Proof.
  intros (bytes & Hb & ->)%run_success. exists bytes. split; [done|].
  by rewrite (utf8_decode_utf8 _ _ Hb), loads_translated.
Qed.

Lemma file_reads_back_as_manifest_witness :
  exists bytes,
    written (run Nt lower_ascii_only
               (World (Some (Dir [ (233 :: lit " 1.mid", File) ])) (Openable None) None))
    = Some bytes
    /\ loads (utf8_decode bytes)
       = Some (manifest Nt lower_ascii_only
                 (root (World (Some (Dir [ (233 :: lit " 1.mid", File) ]))
                              (Openable None) None))).
Proof.
  apply (file_reads_back_as_manifest Nt lower_ascii_only
           (World (Some (Dir [ (233 :: lit " 1.mid", File) ])) (Openable None) None)).
  vm_compute. discriminate.
Defined.

(** ** What a failed write leaves *)

Lemma loads_from_closed (suf : str) (items : list str) :
  loads_from suf Closed_array items
  = if forallb is_space suf then Some items else None.
Proof.
  induction suf as [|c suf IH]; [done|]. simpl.
  destruct (is_space c); [apply IH|done].
Qed.

(** Once a text has been read as an array, only white space may follow. *)
Lemma loads_from_more (text : str) : forall state items result suf,
  loads_from text state items = Some result ->
  loads_from (text ++ suf) state items = loads_from suf Closed_array result.
Proof.
  induction text as [|c text IH]; intros state items result suf H.
  - destruct state; try done. simpl in H. by injection H as ->.
  - cbn [app]. destruct state; simpl in *;
      repeat case_match; try done; by apply IH.
Qed.

Lemma loads_prefix (text pre suf : str) (paths : list str) :
  loads text = Some paths -> (exists body, text = body ++ [93]) ->
  text = pre ++ suf -> suf <> [] -> loads pre = None.
Proof.
  intros Hl [body Hb] -> Hsuf.
  destruct (loads pre) as [items|] eqn:E; [|done]. exfalso.
  unfold loads in *. rewrite (loads_from_more pre _ _ items suf E) in Hl.
  rewrite loads_from_closed in Hl.
  destruct suf as [|a suf _] using rev_ind; [done|].
  rewrite app_assoc in Hb. apply app_inj_tail in Hb as [_ ->].
  rewrite forallb_app in Hl. simpl in Hl. by rewrite andb_false_r in Hl.
Qed.

Lemma dumps_ends_with_bracket (h : host) (paths : list str) :
  exists body, translate_newlines h (dumps paths) = body ++ [93].
Proof.
  destruct paths as [|p ps].
  - exists [91]. by destruct h.
  - rewrite dumps_cons, !app_assoc, translate_newlines_app.
    eexists. f_equal. by destruct h.
Qed.

Lemma utf8_decode_cut (b0 : byte) (tail : list byte) :
  (192 <= Byte.to_N b0 < 224 /\ (length tail < 1)%nat)
  \/ (224 <= Byte.to_N b0 < 240 /\ (length tail < 2)%nat)
  \/ (240 <= Byte.to_N b0 /\ (length tail < 3)%nat) ->
  utf8_decode (b0 :: tail) = [].
Proof.
  intros H. cbn [utf8_decode]. cbv zeta.
  destruct (N.ltb_spec (Byte.to_N b0) 128); [lia|].
  destruct (N.ltb_spec (Byte.to_N b0) 224);
    [destruct tail; [done|simpl in H; lia]|].
  destruct (N.ltb_spec (Byte.to_N b0) 240).
  - destruct tail as [|b1 [|b2 tail]]; try done. simpl in H. lia.
  - destruct tail as [|b1 [|b2 [|b3 tail]]]; try done. simpl in H. lia.
Qed.

(** The bytes of one character, cut short, decode to nothing. *)
Lemma utf8_decode_partial (c : N) (b : list byte) (r : nat) :
  utf8_char c = Some b -> (r < length b)%nat -> utf8_decode (take r b) = [].
Proof.
  unfold utf8_char.
  destruct (N.ltb_spec c 128) as [H1|H1].
  { intros [= <-] Hr. simpl in Hr. by replace r with 0%nat by lia. }
  destruct (N.ltb_spec c 2048) as [H2|H2].
  { intros [= <-] Hr. simpl in Hr.
    assert (c / 64 < 32) by (apply N.Div0.div_lt_upper_bound; lia).
    destruct r as [|r]; [done|]. cbn [take firstn].
    apply utf8_decode_cut. left. rewrite to_N_byte_of by lia.
    split; [hide_divmod; lia|]. rewrite length_take. simpl. lia. }
  destruct ((55296 <=? c) && (c <=? 57343)); [done|].
  destruct (N.ltb_spec c 65536) as [H3|H3].
  { intros [= <-] Hr. simpl in Hr.
    assert (c / 4096 < 16) by (apply N.Div0.div_lt_upper_bound; lia).
    destruct r as [|r]; [done|]. cbn [take firstn].
    apply utf8_decode_cut. right. left. rewrite to_N_byte_of by lia.
    split; [hide_divmod; lia|]. rewrite length_take. simpl. lia. }
  destruct (N.ltb_spec c 1114112) as [H4|H4]; [|done].
  intros [= <-] Hr. simpl in Hr.
  assert (c / 262144 < 5) by (apply N.Div0.div_lt_upper_bound; lia).
  destruct r as [|r]; [done|]. cbn [take firstn].
  apply utf8_decode_cut. right. right. rewrite to_N_byte_of by lia.
  split; [hide_divmod; lia|]. rewrite length_take. simpl. lia.
Qed.

(** The first bytes of an encoded text decode to the first characters of the
    text; cut anywhere before the end, some character is missing. *)
Lemma utf8_decode_take (s : str) : forall (bytes : list byte) (r : nat),
  utf8 s = Some bytes ->
  exists pre suf,
    s = pre ++ suf /\ utf8_decode (take r bytes) = pre
    /\ ((r < length bytes)%nat -> suf <> []).
Proof.
  induction s as [|c s IH]; intros bytes r; simpl.
  - intros [= <-]. exists [], []. split; [done|]. split; [by destruct r|].
    simpl. lia.
  - destruct (utf8_char c) as [b|] eqn:Ec; [|done].
    destruct (utf8 s) as [bs|] eqn:Es; [|done]. intros [= <-].
    destruct (Nat.lt_ge_cases r (length b)) as [Hr|Hr].
    + exists [], (c :: s). split; [done|]. split; [|done].
      rewrite take_app_le by lia. by apply (utf8_decode_partial c).
    + destruct (IH bs (r - length b)%nat eq_refl) as (pre & suf & -> & Hd & Hs).
      exists (c :: pre), suf. split; [done|]. split.
      * rewrite take_app_ge by lia.
        by rewrite (utf8_decode_char c b _ Ec), Hd.
      * rewrite length_app. intros Hlt. apply Hs. lia.
Qed.

Lemma utf8_nonempty (s : str) (bs : list byte) :
  utf8 s = Some bs -> s <> [] -> bs <> [].
Proof.
  destruct s as [|c s]; [done|]. simpl.
  destruct (utf8_char c) as [b|] eqn:Ec; [|done].
  destruct (utf8 s); [|done]. intros [= <-] _.
  unfold utf8_char in Ec.
  repeat match type of Ec with
         | context [if ?x then _ else _] => destruct x
         end; try done; by injection Ec as <-.
Qed.

Lemma translate_newlines_nonempty (h : host) (s : str) :
  s <> [] -> translate_newlines h s <> [].
Proof.
  destruct h; [done|]. destruct s as [|c s]; [done|]. intros _. simpl.
  by destruct (c =? newline).
Qed.

(** When a chunk cannot be encoded, what was written before it is the
    encoding of a beginning of the text that stops short of its end. *)
Lemma write_chunks_failed (h : host) (chunks : list str) :
  forall (sofar bytes : list byte),
  write_chunks h chunks sofar = (bytes, false) ->
  exists pre suf bs,
    concat chunks = pre ++ suf /\ suf <> []
    /\ utf8 (translate_newlines h pre) = Some bs /\ bytes = sofar ++ bs.
Proof.
  induction chunks as [|chunk chunks IH]; intros sofar bytes; simpl; [done|].
  destruct (utf8 (translate_newlines h chunk)) as [b|] eqn:E.
  - intros (pre & suf & bs & Hc & Hs & Hp & ->)%IH.
    exists (chunk ++ pre), suf, (b ++ bs).
    rewrite Hc, translate_newlines_app, utf8_app, E, Hp.
    by rewrite !app_assoc.
  - intros [= <-]. exists [], (chunk ++ concat chunks), [].
    split; [done|]. split; [|split; [by destruct h|by rewrite app_nil_r]].
    destruct chunk; [by destruct h|done].
Qed.

(** X12: a run that fails after it has opened the output file (the device
    is full, or a name cannot be encoded) never leaves a file that reads
    as a JSON array: what is written stops before the closing bracket. *)
Theorem failed_write_is_not_a_manifest (h : host) (lower : str -> str)
    (w : world) (room : option nat) :
  output w = Openable room -> exit_code (run h lower w) <> 0 ->
  exists bytes,
    written (run h lower w) = Some bytes /\ loads (utf8_decode bytes) = None.
Proof.
  intros Hout Hcode.
  pose proof (loads_translated h (manifest h lower (root w))) as Hl.
  pose proof (dumps_ends_with_bracket h (manifest h lower (root w))) as He.
  assert (forall pre suf bs r,
            translate_newlines h (dumps (manifest h lower (root w))) = pre ++ suf ->
            utf8 pre = Some bs -> (suf <> [] \/ (r < length bs)%nat) ->
            loads (utf8_decode (take r bs)) = None) as Hcut.
  { intros pre suf bs r Ht Hbs Hshort.
    destruct (utf8_decode_take pre bs r Hbs) as (p1 & p2 & -> & -> & Hp2).
    apply (loads_prefix _ p1 (p2 ++ suf) _ Hl He); [by rewrite app_assoc|].
    destruct Hshort as [Hs|Hr]; [by destruct p2|].
    specialize (Hp2 Hr). by destruct p2. }
  unfold run in *. rewrite Hout in *.
  destruct (write_chunks h (iterencode (manifest h lower (root w))) [])
    as [bytes [|]] eqn:E.
  - apply write_chunks_encoded in E as (bs & Hbs & ->). simpl in *.
    destruct room as [r|]; [|done].
    case_bool_decide as Hr; [done|]. simpl. eexists. split; [done|].
    apply (Hcut (translate_newlines h (dumps (manifest h lower (root w)))) [] bs r);
      [by rewrite app_nil_r|done|right; lia].
  - apply write_chunks_failed in E as (pre & suf & bs & Hc & Hs & Hp & ->).
    simpl in *. fold (dumps (manifest h lower (root w))) in Hc.
    assert (translate_newlines h (dumps (manifest h lower (root w)))
            = translate_newlines h pre ++ translate_newlines h suf) as Ht
      by (by rewrite Hc, translate_newlines_app).
    pose proof (translate_newlines_nonempty h suf Hs) as Hs'.
    destruct room as [r|]; simpl; eexists; (split; [done|]).
    + apply (Hcut _ _ bs r Ht Hp). by left.
    + rewrite <- (firstn_all bs). apply (Hcut _ _ bs (length bs) Ht Hp). by left.
Qed.

Lemma failed_write_is_not_a_manifest_witness :
  exists bytes,
    written (run Posix lower_ascii_only
               (World (Some scenario_A) (Openable (Some 20%nat)) None)) = Some bytes
    /\ loads (utf8_decode bytes) = None.
Proof.
  apply (failed_write_is_not_a_manifest Posix lower_ascii_only
           (World (Some scenario_A) (Openable (Some 20%nat)) None) (Some 20%nat)).
  - reflexivity.
  - vm_compute. discriminate.
Defined.

(** ** The files the walk does not reach *)

Lemma seen_names (entries : list (str * tree)) :
  map fst (map (fun e => (fst e, seen (snd e))) entries)
  = map fst (map (fun e => (fst e, opened (snd e))) entries).
Proof. by rewrite !map_map. Qed.

Lemma unique_names_seen (t : tree) :
  unique_names (opened t) = true -> unique_names (seen t) = true.
Proof.
  induction t as [|entered entries IH] using tree_ind; [done|].
  destruct entered; [|done]. simpl.
  intros [Hnd Hall]%andb_prop. rewrite seen_names, Hnd. simpl.
  rewrite forallb_forall in *. rewrite List.Forall_forall in IH.
  intros e' (e & <- & He)%in_map_iff. simpl. apply (IH e He).
  apply (Hall (fst e, opened (snd e))). apply in_map_iff. by exists e.
Qed.

Lemma wf_names_seen (h : host) (t : tree) :
  wf_names h (opened t) = true -> wf_names h (seen t) = true.
Proof.
  induction t as [|entered entries IH] using tree_ind; [done|].
  destruct entered; [|done]. simpl.
  rewrite !forallb_forall. rewrite List.Forall_forall in IH.
  intros Hall e' (e & <- & He)%in_map_iff. simpl.
  specialize (Hall (fst e, opened (snd e))). simpl in Hall.
  destruct (andb_prop _ _ (Hall ltac:(apply in_map_iff; by exists e))) as [Hn Hw].
  by rewrite Hn, (IH e He Hw).
Qed.

(** X13: of all the files that lie under the base directory, the manifest
    holds those, and only those, that the walk reaches and whose name
    passes the filter; a file below a directory that is not entered is
    left out whatever its name. *)
Theorem file_appears_iff_reached_and_matching (h : host) (lower : str -> str)
    (t : tree) (dirs : list str) (f : str) :
  well_formed h (opened t) = true ->
  In (dirs, f) (files_under (opened t)) ->
  (In (join_with slash (dirs ++ [f])) (manifest h lower (Some (seen t)))
   <-> In (dirs, f) (files_under (seen t)) /\ is_midi lower f = true).
Proof.
  intros Hwf Hin. pose proof Hwf as [Hu Hw]%andb_prop.
  assert (well_formed h (seen t) = true) as Hwf'.
  { unfold well_formed. by rewrite unique_names_seen, wf_names_seen. }
  split.
  - rewrite manifest_well_formed by done. rewrite sort_In, in_map_iff.
    intros (df' & E & [Hin' Hm]%filter_In).
    change (join_with slash (dirs ++ [f])) with (rel_path (dirs, f)) in E.
    apply (rel_path_inj h) in E.
    + by subst.
    + apply (files_under_wf h (seen t)); [|done].
      by apply andb_prop in Hwf' as [_ ?].
    + by apply (files_under_wf h (opened t)).
  - intros [Hreach Hm]. by apply (In_manifest h lower (seen t) dirs f).
Qed.

Lemma file_appears_iff_reached_and_matching_witness :
  In (join_with slash ([lit "locked"] ++ [lit "in.mid"]))
     (manifest Posix lower_ascii_only (Some (seen locked_tree)))
  <-> In ([lit "locked"], lit "in.mid") (files_under (seen locked_tree))
      /\ is_midi lower_ascii_only (lit "in.mid") = true.
Proof.
  apply (file_appears_iff_reached_and_matching Posix lower_ascii_only locked_tree
           [lit "locked"] (lit "in.mid")).
  - reflexivity.
  - vm_compute. tauto.
Defined.
